(** * cs_translate: a shallow embedding of [bin/cs.translate.js]

    The development follows the source file top-down:
    - JavaScript strings as sequences of UTF-16 code units, with the
      character classes, [trim] and case folding the program relies on;
    - the chat regular expression of [handleLine], run by a small
      backtracking matcher, next to a declarative reading of the pattern;
    - asynchronous functions as resumptions: a tree of console output,
      awaited [translate] calls and exceptions, run against an oracle that
      stands for the external translation service;
    - [langName], [smartTranslate], [originalLangReadable],
      [autoTranslateToConsole], [handleLine];
    - the [fs.watchFile] listener installed by [start]. *)

From Stdlib Require Import List NArith Ascii String Bool Arith Lia.
From Stdlib.Strings Require Import Byte.
Import ListNotations.

Set Implicit Arguments.

(* ------------------------------------------------------------------------- *)
(** ** JavaScript strings *)
(* ------------------------------------------------------------------------- *)

(** A JavaScript string is a sequence of UTF-16 code units. *)
Definition jsstring := list N.

(** An ASCII literal of the source, as code units. *)
Definition lit (s : string) : jsstring :=
  map N_of_ascii (list_ascii_of_string s).

Fixpoint str_eqb (a b : jsstring) : bool :=
  match a, b with
  | [], [] => true
  | x :: a', y :: b' => (x =? y)%N && str_eqb a' b'
  | _, _ => false
  end.

(** ECMAScript [LineTerminator]: LF, CR, LS, PS. *)
Definition is_line_terminator (c : N) : bool :=
  ((c =? 0x0A) || (c =? 0x0D) || (c =? 0x2028) || (c =? 0x2029))%N.

(** ECMAScript [WhiteSpace]: TAB, VT, FF, ZWNBSP and the space separators. *)
Definition is_white_space (c : N) : bool :=
  ((c =? 0x09) || (c =? 0x0B) || (c =? 0x0C) || (c =? 0x20) || (c =? 0xA0)
   || (c =? 0x1680) || ((0x2000 <=? c) && (c <=? 0x200A))
   || (c =? 0x202F) || (c =? 0x205F) || (c =? 0x3000) || (c =? 0xFEFF))%N.

(** The regular-expression class [\s], also what [trim] strips. *)
Definition is_space (c : N) : bool := is_white_space c || is_line_terminator c.

(** The class [[^:]]. *)
Definition not_colon (c : N) : bool := negb (c =? 0x3A)%N.

(** The class [.] (no [s] flag, no [u] flag): one code unit that is not a
    line terminator. *)
Definition dot (c : N) : bool := negb (is_line_terminator c).

(** The class of [CYRILLIC_REGEX], code units U+0400 to U+04FF. *)
Definition is_cyrillic (c : N) : bool := ((0x0400 <=? c) && (c <=? 0x04FF))%N.

Fixpoint trimStart (s : jsstring) : jsstring :=
  match s with
  | c :: s' => if is_space c then trimStart s' else s
  | [] => []
  end.

Definition trimEnd (s : jsstring) : jsstring := rev (trimStart (rev s)).

(** [String.prototype.trim]. *)
Definition trim (s : jsstring) : jsstring := trimEnd (trimStart s).

(** [toLowerCase] and [toUpperCase] on the ASCII letters; other code units
    are left as they are.  This is what the language does on ASCII strings,
    and language codes are ASCII.  On any string it decides the two
    comparisons the program makes (against ["ru"] and against the target
    ["en"]) as the language does, the full Unicode mapping sending no other
    code point to [r], [u], [e] or [n].  Beyond that, statements about the
    outcome of a case mapping keep to ASCII strings. *)
Definition lower_unit (c : N) : N :=
  if ((0x41 <=? c) && (c <=? 0x5A))%N then (c + 32)%N else c.

Definition upper_unit (c : N) : N :=
  if ((0x61 <=? c) && (c <=? 0x7A))%N then (c - 32)%N else c.

Definition toLowerCase (s : jsstring) : jsstring := map lower_unit s.
Definition toUpperCase (s : jsstring) : jsstring := map upper_unit s.

(** [a || b] where [a] may be [undefined]: the empty string is falsy too. *)
Definition or_else (a : option jsstring) (b : jsstring) : jsstring :=
  match a with
  | Some ((_ :: _) as s) => s
  | _ => b
  end.

(* ------------------------------------------------------------------------- *)
(** ** A backtracking matcher for the constructs of the chat pattern *)
(* ------------------------------------------------------------------------- *)

(** Matchers are written in continuation-passing style, as the ECMAScript
    specification of regular expressions does: a matcher receives what is to
    be matched after it and the remaining input.  [None] is failure, on which
    the caller tries its next choice. *)
Section Backtracking.

Variable R : Type.

Definition Cont := jsstring -> option R.

(** One code unit of a class. *)
Definition class (p : N -> bool) (k : Cont) : Cont :=
  fun s =>
    match s with
    | c :: s' => if p c then k s' else None
    | [] => None
    end.

(** A literal run of code units. *)
Fixpoint literal (l : jsstring) (k : Cont) : Cont :=
  match l with
  | [] => k
  | x :: l' => class (N.eqb x) (literal l' k)
  end.

(** [a|b]: the left alternative first. *)
Definition alt (a b : Cont) : Cont :=
  fun s => match a s with Some r => Some r | None => b s end.

(** Greedy [p*] under a capture: as many code units as possible are taken;
    on failure of what follows, one is given back at a time.  [acc] is what
    the capture holds so far. *)
Fixpoint greedy_star (p : N -> bool) (k : jsstring -> Cont)
         (acc : jsstring) (s : jsstring) : option R :=
  match s with
  | c :: s' =>
      if p c then
        match greedy_star p k (acc ++ [c]) s' with
        | Some r => Some r
        | None => k acc s
        end
      else k acc s
  | [] => k acc s
  end.

(** Greedy [p+] under a capture. *)
Definition greedy_plus (p : N -> bool) (k : jsstring -> Cont) : Cont :=
  fun s =>
    match s with
    | c :: s' => if p c then greedy_star p k [c] s' else None
    | [] => None
    end.

(** An unanchored pattern is tried at each start position from the left. *)
Fixpoint search (m : Cont) (s : jsstring) : option R :=
  match m s with
  | Some r => Some r
  | None =>
      match s with
      | [] => None
      | _ :: s' => search m s'
      end
  end.

End Backtracking.

(** The capture groups 1, 2, 3 of a successful match. *)
Definition Groups := (jsstring * jsstring * jsstring)%type.

(** What follows the team token: [\]\s+([^:]+):\s(.+)], the token being
    what group 1 holds. *)
Definition after_team (tm : jsstring) : Cont Groups :=
  literal (lit "]")
    (greedy_plus is_space (fun _ =>
       greedy_plus not_colon (fun player =>
         literal (lit ":")
           (class is_space
              (greedy_plus dot (fun messageRaw _ =>
                 Some (tm, player, messageRaw))))))).

(** [/\[(CT|T|ALL)\]\s+([^:]+):\s(.+)/] tried at the head of the input. *)
Definition chat_regex_here : Cont Groups :=
  literal (lit "[")
    (alt (literal (lit "CT") (after_team (lit "CT")))
       (alt (literal (lit "T") (after_team (lit "T")))
          (literal (lit "ALL") (after_team (lit "ALL"))))).

(** [line.match(/\[(CT|T|ALL)\]\s+([^:]+):\s(.+)/)]. *)
Definition chat_match (line : jsstring) : option Groups :=
  search chat_regex_here line.

(** The pattern read as a set of strings.  [ChatShape s tm player msg]: [s]
    begins with a bracketed team tag [tm], whitespace, a colon-free sender
    [player], a colon, one whitespace and a run [msg] of characters without
    line terminator. *)
Definition ChatShape (s tm player msg : jsstring) : Prop :=
  exists ws sp post,
    s = lit "[" ++ tm ++ lit "]" ++ ws ++ player ++ lit ":"
          ++ sp :: msg ++ post
    /\ In tm [lit "CT"; lit "T"; lit "ALL"]
    /\ ws <> [] /\ forallb is_space ws = true
    /\ player <> [] /\ forallb not_colon player = true
    /\ is_space sp = true
    /\ msg <> [] /\ forallb dot msg = true.

(** A line matches when the shape stands somewhere in it. *)
Definition MatchesChatPattern (line : jsstring) : Prop :=
  exists pre s tm player msg, line = pre ++ s /\ ChatShape s tm player msg.

(* ------------------------------------------------------------------------- *)
(** ** Console output *)
(* ------------------------------------------------------------------------- *)

(** The [chalk] styles the chat path uses.  A printed line is kept as its
    styled spans, so that nothing depends on whether the terminal shows
    colours. *)
Inductive Style : Type :=
  plain | yellow | magenta | magentaBright | blueBright | bold | white | gray.

Definition Styled := list (Style * jsstring).

Definition chalk (st : Style) (s : jsstring) : Styled := [(st, s)].

(** [console.log(a, b, ...)]: the arguments separated by one space. *)
Fixpoint console_log (args : list Styled) : Styled :=
  match args with
  | [] => []
  | [a] => a
  | a :: rest => a ++ chalk plain (lit " ") ++ console_log rest
  end.

(** What a line reads as once the styling is dropped. *)
Definition plain_text (l : Styled) : jsstring := List.concat (map snd l).

(** The string literals of [sym.warn], [sym.chat], [sym.trans] and of
    the arrow in the translation line, code unit by code unit as the
    source file holds them. *)
Definition sym_warn : Styled :=
  chalk yellow [0x201A; 0xF6; 0x2020; 0xD4; 0x220F; 0xE8]%N.
Definition sym_chat : Styled := chalk magenta [0xF8FF; 0xFC; 0xED; 0xA8]%N.
Definition sym_trans : Styled :=
  chalk blueBright [0xF8FF; 0xFC; 0xE5; 0xE7]%N.
Definition arrow : jsstring := [0x201A; 0xDC; 0xED]%N.

(* ------------------------------------------------------------------------- *)
(** ** The external translate capability and asynchronous functions *)
(* ------------------------------------------------------------------------- *)

(** An [Error], or any other value that is neither [undefined] nor
    [null], read the one way the program reads it: [err_message] is what
    the template literal makes of [err.message]. *)
Record JsError : Type := { err_message : jsstring }.

(** A thrown value, or the reason of a rejected promise.  Any value can be
    thrown: [undefined] and [null] have no properties to read. *)
Inductive Thrown : Type :=
| ThrownUndefined
| ThrownNull
| ThrownError (e : JsError).

(** The options object [{ from, to }] given to [translate]. *)
Record TranslateOptions : Type :=
  { opt_from : option jsstring; opt_to : jsstring }.

(** The result object, read through the paths the program uses: [res.text],
    [res.from?.language?.iso] ([None] when any link of the chain is absent)
    and the [__forcedFrom] mark that [smartTranslate] may add. *)
Record TranslationResult : Type :=
  { text : jsstring; iso : option jsstring; __forcedFrom : option jsstring }.

(** What an awaited [translate] promise resolves to: a result object, or, for
    a malformed response, no object at all. *)
Inductive Response : Type :=
| Nullish
| Obj (r : TranslationResult).

Inductive Outcome : Type :=
| Rejected (e : Thrown)
| Resolved (v : Response).

(** An asynchronous function body as a resumption.  [AwaitTranslate] is the
    only point where the function hands control back: the call to the
    external [translate] has been issued and the body resumes with its
    outcome.  Everything before the first [AwaitTranslate] runs synchronously
    in the caller's turn. *)
Inductive Async (A : Type) : Type :=
| Ret (a : A)
| Throw (e : Thrown)
| ConsoleLog (line : Styled) (k : Async A)
| AwaitTranslate (txt : jsstring) (opts : TranslateOptions)
                 (k : Outcome -> Async A).

Arguments Ret {A} a.
Arguments Throw {A} e.
Arguments ConsoleLog {A} line k.
Arguments AwaitTranslate {A} txt opts k.

Fixpoint bind {A B : Type} (m : Async A) (f : A -> Async B) : Async B :=
  match m with
  | Ret a => f a
  | Throw e => Throw e
  | ConsoleLog l k => ConsoleLog l (bind k f)
  | AwaitTranslate t o k => AwaitTranslate t o (fun out => bind (k out) f)
  end.

(** [try { m } catch (err) { h err }]. *)
Fixpoint try_catch {A : Type} (m : Async A) (h : Thrown -> Async A)
  : Async A :=
  match m with
  | Ret a => Ret a
  | Throw e => h e
  | ConsoleLog l k => ConsoleLog l (try_catch k h)
  | AwaitTranslate t o k =>
      AwaitTranslate t o (fun out => try_catch (k out) h)
  end.

Notation "x <- m ;; k" := (bind m (fun x => k))
  (at level 61, m at next level, right associativity).

(** [await translate(text, opts)]. *)
Definition translate (txt : jsstring) (opts : TranslateOptions)
  : Async Response :=
  AwaitTranslate txt opts
    (fun out =>
       match out with
       | Rejected e => Throw e
       | Resolved v => Ret v
       end).

(** Reading or setting a property of [v] throws a [TypeError] when [v] is
    [undefined] or [null]; [access] says which access it was. *)
Definition TypeError (access : string) : JsError :=
  {| err_message := lit "Cannot " ++ lit access |}.

Definition property_of (v : Response) (access : string)
  : Async TranslationResult :=
  match v with
  | Nullish => Throw (ThrownError (TypeError access))
  | Obj r => Ret r
  end.

(** [err.message] in a template literal, [err] being what was caught. *)
Definition message_of (err : Thrown) : Async jsstring :=
  match err with
  | ThrownUndefined =>
      Throw
        (ThrownError
           (TypeError "read properties of undefined (reading 'message')"))
  | ThrownNull =>
      Throw
        (ThrownError
           (TypeError "read properties of null (reading 'message')"))
  | ThrownError e => Ret (err_message e)
  end.

(** What can be observed of a run: lines printed and [translate] calls
    issued, in the order they happen. *)
Inductive Event : Type :=
| Printed (line : Styled)
| Called (txt : jsstring) (opts : TranslateOptions).

(** The translation service, as far as one chat line can tell: each call of
    the line carries different options, so a function of the arguments
    covers every behaviour of the service. *)
Definition Oracle := jsstring -> TranslateOptions -> Outcome.

(** Running a body to completion against the service: the events in order,
    and the value it fulfils with or the error it rejects with. *)
Fixpoint run {A : Type} (o : Oracle) (m : Async A)
  : list Event * (Thrown + A) :=
  match m with
  | Ret a => ([], inr a)
  | Throw e => ([], inl e)
  | ConsoleLog l k =>
      let (t, r) := run o k in (Printed l :: t, r)
  | AwaitTranslate txt opts k =>
      let (t, r) := run o (k (o txt opts)) in (Called txt opts :: t, r)
  end.

Definition trace {A : Type} (o : Oracle) (m : Async A) : list Event :=
  fst (run o m).

Definition result {A : Type} (o : Oracle) (m : Async A) : Thrown + A :=
  snd (run o m).

(** The lines a body prints before it first hands control back. *)
Fixpoint sync_output {A : Type} (m : Async A) : list Styled :=
  match m with
  | ConsoleLog l k => l :: sync_output k
  | _ => []
  end.

(** The lines of a trace. *)
Fixpoint printed_lines (t : list Event) : list Styled :=
  match t with
  | [] => []
  | Printed l :: t' => l :: printed_lines t'
  | Called _ _ :: t' => printed_lines t'
  end.

(* ------------------------------------------------------------------------- *)
(** ** Language mapping and auto-translate configuration *)
(* ------------------------------------------------------------------------- *)

Definition LANG_MAP_entries : list (string * string) :=
  [ ("af", "Afrikaans"); ("sq", "Albanian"); ("am", "Amharic");
    ("ar", "Arabic"); ("hy", "Armenian"); ("az", "Azerbaijani");
    ("eu", "Basque"); ("be", "Belarusian"); ("bn", "Bengali");
    ("bs", "Bosnian"); ("bg", "Bulgarian"); ("ca", "Catalan");
    ("ceb", "Cebuano"); ("ny", "Chichewa"); ("zh", "Chinese");
    ("zh_cn", "Chinese (Simplified)"); ("zh_tw", "Chinese (Traditional)");
    ("co", "Corsican"); ("hr", "Croatian"); ("cs", "Czech");
    ("da", "Danish"); ("nl", "Dutch"); ("en", "English");
    ("eo", "Esperanto"); ("et", "Estonian"); ("tl", "Filipino");
    ("fi", "Finnish"); ("fr", "French"); ("fy", "Frisian");
    ("gl", "Galician"); ("ka", "Georgian"); ("de", "German");
    ("el", "Greek"); ("gu", "Gujarati"); ("ht", "Haitian Creole");
    ("ha", "Hausa"); ("haw", "Hawaiian"); ("he", "Hebrew");
    ("hi", "Hindi"); ("hmn", "Hmong"); ("hu", "Hungarian");
    ("is", "Icelandic"); ("ig", "Igbo"); ("id", "Indonesian");
    ("ga", "Irish"); ("it", "Italian"); ("ja", "Japanese");
    ("jw", "Javanese"); ("kn", "Kannada"); ("kk", "Kazakh");
    ("km", "Khmer"); ("rw", "Kinyarwanda"); ("ko", "Korean");
    ("ku", "Kurdish (Kurmanji)"); ("ky", "Kyrgyz"); ("lo", "Lao");
    ("la", "Latin"); ("lv", "Latvian"); ("lt", "Lithuanian");
    ("lb", "Luxembourgish"); ("mk", "Macedonian"); ("mg", "Malagasy");
    ("ms", "Malay"); ("ml", "Malayalam"); ("mt", "Maltese");
    ("mi", "Maori"); ("mr", "Marathi"); ("mn", "Mongolian");
    ("my", "Myanmar (Burmese)"); ("ne", "Nepali"); ("no", "Norwegian");
    ("or", "Odia (Oriya)"); ("ps", "Pashto"); ("fa", "Persian");
    ("pl", "Polish"); ("pt", "Portuguese"); ("pa", "Punjabi");
    ("ro", "Romanian"); ("ru", "Russian"); ("sm", "Samoan");
    ("gd", "Scots Gaelic"); ("sr", "Serbian"); ("st", "Sesotho");
    ("sn", "Shona"); ("sd", "Sindhi"); ("si", "Sinhala"); ("sk", "Slovak");
    ("sl", "Slovenian"); ("so", "Somali"); ("es", "Spanish");
    ("su", "Sundanese"); ("sw", "Swahili"); ("sv", "Swedish");
    ("tg", "Tajik"); ("ta", "Tamil"); ("tt", "Tatar"); ("te", "Telugu");
    ("th", "Thai"); ("tr", "Turkish"); ("tk", "Turkmen");
    ("uk", "Ukrainian"); ("ur", "Urdu"); ("ug", "Uyghur"); ("uz", "Uzbek");
    ("vi", "Vietnamese"); ("cy", "Welsh"); ("xh", "Xhosa");
    ("yi", "Yiddish"); ("yo", "Yoruba"); ("zu", "Zulu") ]%string.

Definition LANG_MAP : list (jsstring * jsstring) :=
  map (fun e => (lit (fst e), lit (snd e))) LANG_MAP_entries.

(** The own entry of a table under [key]. *)
Fixpoint lookup (key : jsstring) (m : list (jsstring * jsstring))
  : option jsstring :=
  match m with
  | [] => None
  | (k, v) :: m' => if str_eqb key k then Some v else lookup key m'
  end.

Definition AUTO_TRANSLATE : bool := true.
Definition AUTO_TRANSLATE_TARGET : jsstring := lit "en".
Definition PREFER_RU_FOR_CYRILLIC : bool := true.

(** [CYRILLIC_REGEX.test(text)]. *)
Definition CYRILLIC_REGEX_test (txt : jsstring) : bool :=
  existsb is_cyrillic txt.

(** [LANG_MAP] is a plain object, so besides its own entries [LANG_MAP[key]]
    finds what the object inherits.  Two inherited names are lowercase:
    [constructor], the function [Object], and [__proto__], the prototype
    object.  Both are truthy, and the name is only ever put into a template
    literal, so they are given as the template literal renders them. *)
Definition inherited_property (key : jsstring) : option jsstring :=
  if str_eqb key (lit "constructor")
  then Some (lit "function Object() { [native code] }")
  else if str_eqb key (lit "__proto__") then Some (lit "[object Object]")
  else None.

(** [LANG_MAP[key]]. *)
Definition LANG_MAP_get (key : jsstring) : option jsstring :=
  match lookup key LANG_MAP with
  | Some v => Some v
  | None => inherited_property key
  end.

(** [langName(iso)]:
    [LANG_MAP[key] || key.toUpperCase() || "UNKNOWN"]. *)
Definition langName (code : jsstring) : jsstring :=
  let key := toLowerCase (or_else (Some code) []) in
  or_else (LANG_MAP_get key)
    (or_else (Some (toUpperCase key)) (lit "UNKNOWN")).

(* ------------------------------------------------------------------------- *)
(** ** Translation logic *)
(* ------------------------------------------------------------------------- *)

(** The stub returned when translation fails. *)
Definition fallback (txt : jsstring) : TranslationResult :=
  {| text := txt; iso := Some (lit "unknown"); __forcedFrom := None |}.

(** [forced.__forcedFrom = code]. *)
Definition set_forcedFrom (r : TranslationResult) (code : jsstring)
  : TranslationResult :=
  {| text := text r; iso := iso r; __forcedFrom := Some code |}.

(** [{ to: toLang }] and [{ from: "ru", to: toLang }]. *)
Definition detect_opts (toLang : jsstring) : TranslateOptions :=
  {| opt_from := None; opt_to := toLang |}.

Definition forced_opts (toLang : jsstring) : TranslateOptions :=
  {| opt_from := Some (lit "ru"); opt_to := toLang |}.

Definition warning (err : JsError) : Styled :=
  console_log
    [sym_warn; chalk yellow (lit "Translation failed: " ++ err_message err)].

(** [smartTranslate(text, toLang)]; its one caller always gives [toLang].
    The inner [try] returns from the function when the forced call
    succeeds; its empty [catch] falls through to [return res].  The outer
    [catch] reads [err.message] before it prints, and nothing catches what
    that may throw. *)
Definition smartTranslate (txt toLang : jsstring) : Async TranslationResult :=
  try_catch
    (v <- translate txt (detect_opts toLang) ;;
     res <- property_of v "read properties of undefined (reading 'from')" ;;
     let guess := toLowerCase (or_else (iso res) []) in
     let shouldForceRu :=
       PREFER_RU_FOR_CYRILLIC && CYRILLIC_REGEX_test txt
       && negb (str_eqb guess (lit "ru")) in
     if shouldForceRu then
       try_catch
         (w <- translate txt (forced_opts toLang) ;;
          forced <- property_of w
                      "set properties of undefined (setting '__forcedFrom')" ;;
          Ret (set_forcedFrom forced (lit "ru")))
         (fun _ => Ret res)
     else Ret res)
    (fun err =>
       msg <- message_of err ;;
       ConsoleLog (warning {| err_message := msg |}) (Ret (fallback txt))).

(** [(res.__forcedFrom || res.from?.language?.iso || "unknown")
      .toLowerCase()]. *)
Definition source_iso (res : TranslationResult) : jsstring :=
  toLowerCase
    (or_else (__forcedFrom res) (or_else (iso res) (lit "unknown"))).

(** [originalLangReadable(res)]. *)
Definition originalLangReadable (res : TranslationResult) : jsstring :=
  langName (source_iso res).

(* ------------------------------------------------------------------------- *)
(** ** Auto-translate to console *)
(* ------------------------------------------------------------------------- *)

(** The argument object [{ team, sender, message }]; [message] may be
    missing. *)
Record ChatEvent : Type :=
  { team : jsstring; sender : jsstring; message : option jsstring }.

(** The translated line:
    [[team] sender (readableLang -> TARGET): ] followed by the text. *)
Definition translated_line (tm sd readableLang : jsstring)
           (res : TranslationResult) : Styled :=
  console_log
    [sym_trans;
     chalk blueBright
       (lit "[" ++ tm ++ lit "] " ++ sd ++ lit " (" ++ readableLang
        ++ lit " " ++ arrow ++ lit " "
        ++ toUpperCase AUTO_TRANSLATE_TARGET ++ lit "): ")
     ++ chalk gray (text res)].

(** [autoTranslateToConsole({ team, sender, message })]. *)
Definition autoTranslateToConsole (ev : ChatEvent) : Async unit :=
  if negb AUTO_TRANSLATE then Ret tt
  else
    match message ev with
    | Some ((_ :: _) as msg) =>
        res <- smartTranslate msg AUTO_TRANSLATE_TARGET ;;
        let fromIso := source_iso res in
        if str_eqb fromIso (toLowerCase AUTO_TRANSLATE_TARGET) then Ret tt
        else
          let readableLang := originalLangReadable res in
          ConsoleLog (translated_line (team ev) (sender ev) readableLang res)
            (Ret tt)
    | _ => Ret tt
    end.

(* ------------------------------------------------------------------------- *)
(** ** Log line parsing and handler *)
(* ------------------------------------------------------------------------- *)

(** The raw chat line. *)
Definition chat_line (tm sd msg : jsstring) : Styled :=
  console_log
    [sym_chat;
     chalk magentaBright (lit "[" ++ tm ++ lit "] ")
     ++ chalk bold sd ++ chalk white (lit ": ") ++ chalk white msg].

(** The classifier inside [handleLine]: its match, destructuring and two
    trims, giving the object that [handleLine] prints and passes to
    [autoTranslateToConsole]. *)
Definition classify (line : jsstring) : option ChatEvent :=
  match chat_match line with
  | None => None
  | Some (tm, player, messageRaw) =>
      Some {| team := tm;
              sender := trim (or_else (Some player) []);
              message := Some (trim (or_else (Some messageRaw) [])) |}
  end.

(** [handleLine(line)]. *)
Definition handleLine (line : jsstring) : Async unit :=
  match chat_match line with
  | None => Ret tt
  | Some (tm, player, messageRaw) =>
      let msg := trim (or_else (Some messageRaw) []) in
      let sd := trim (or_else (Some player) []) in
      ConsoleLog (chat_line tm sd msg)
        (autoTranslateToConsole
           {| team := tm; sender := sd; message := Some msg |})
  end.

(* ------------------------------------------------------------------------- *)
(** ** The watcher installed by [start] *)
(* ------------------------------------------------------------------------- *)

(** [fs.Stats], of which the listener reads [size]. *)
Record Stats : Type := { size : nat }.

(** [fs.createReadStream(path, { start, end })] on a file holding [file]:
    the bytes at offsets [start] to [end], both included, as far as the
    file has them. *)
Definition createReadStream (file : list byte) (start end_ : nat)
  : list byte :=
  firstn (end_ + 1 - start) (skipn start file).

(** [readline] on a finished stream: a ['line'] event per line ended by
    LF, CR or CR LF, and one for what is left at the end of the stream when
    that is not empty.  [buf] is the line read so far. *)
Fixpoint readline_lines (buf : jsstring) (s : jsstring) : list jsstring :=
  match s with
  | [] => match buf with [] => [] | _ :: _ => [buf] end
  | c :: s' =>
      if (c =? 0x0D)%N then
        match s' with
        | d :: s'' =>
            if (d =? 0x0A)%N then buf :: readline_lines [] s''
            else buf :: readline_lines [] s'
        | [] => buf :: readline_lines [] s'
        end
      else if (c =? 0x0A)%N then buf :: readline_lines [] s'
      else readline_lines (buf ++ [c]) s'
  end.

(** What one notification does: the byte range asked of the file, if any,
    and the lines handed to [handleLine], in order. *)
Record Cycle : Type :=
  { read_range : option (nat * nat); lines : list jsstring }.

(** The last known size: the size of the [prev] stats that [fs.watchFile]
    hands to the listener, that is, the size seen at the previous
    notification. *)
Record TailState : Type := { lastKnownSize : nat }.

Section Watcher.

(** The stream's ["utf8"] decoding of the bytes read. *)
Variable utf8_decode : list byte -> jsstring.

(** The listener [(curr, prev) => { ... }], [file] being the content of
    the log when the stream reads it. *)
Definition listener (file : list byte) (curr prev : Stats) : Cycle :=
  if size curr <=? size prev then {| read_range := None; lines := [] |}
  else
    {| read_range := Some (size prev, size curr);
       lines :=
         readline_lines []
           (utf8_decode (createReadStream file (size prev) (size curr))) |}.

(** One notification of [fs.watchFile]: the listener is called with the
    current stats and the previous ones, and the current stats become the
    previous ones of the next notification. *)
Definition notify (st : TailState) (file : list byte) (curr : Stats)
  : Cycle * TailState :=
  (listener file curr {| size := lastKnownSize st |},
   {| lastKnownSize := size curr |}).

(** The bodies started by a cycle, one per line. *)
Definition dispatched (c : Cycle) : list (Async unit) :=
  map handleLine (lines c).

End Watcher.

(* ------------------------------------------------------------------------- *)
(** ** Sample services, lines and files *)
(* ------------------------------------------------------------------------- *)

(** A service that is down: every call is rejected. *)
Definition offline : Oracle :=
  fun _ _ => Rejected (ThrownError {| err_message := lit "network" |}).

(** A service whose promise is rejected without a reason. *)
Definition rejects_with_undefined : Oracle :=
  fun _ _ => Rejected ThrownUndefined.

(** A service that takes Cyrillic text for Ukrainian unless told the
    source language. *)
Definition guesses_uk : Oracle :=
  fun _ opts =>
    match opt_from opts with
    | None =>
        Resolved (Obj {| text := lit "Hi"; iso := Some (lit "uk");
                         __forcedFrom := None |})
    | Some code =>
        Resolved (Obj {| text := lit "Hello"; iso := Some code;
                         __forcedFrom := None |})
    end.

(** A service that finds every text to be English already. *)
Definition detects_en : Oracle :=
  fun txt _ =>
    Resolved (Obj {| text := txt; iso := Some (lit "EN");
                     __forcedFrom := None |}).

(** A service that finds every text to be German. *)
Definition detects_de : Oracle :=
  fun _ _ =>
    Resolved (Obj {| text := lit "good day"; iso := Some (lit "de");
                     __forcedFrom := None |}).

(** The Russian word for "hello", in Cyrillic. *)
Definition privet : jsstring :=
  [0x043F; 0x0440; 0x0438; 0x0432; 0x0435; 0x0442]%N.

(** Bytes decoded one code unit per byte, which is what UTF-8 decoding does
    on ASCII content. *)
Definition ascii_decode (bs : list byte) : jsstring := map Byte.to_N bs.

(** A log of two lines, ["ab"] and ["cd"], each ended by LF. *)
Definition two_line_log : list byte := [x61; x62; x0a; x63; x64; x0a].

(** A log cut off in the middle of its second line: ["ab"], LF, ["cd"]. *)
Definition cut_log : list byte := [x61; x62; x0a; x63; x64].

(** A line of the log holds neither LF nor CR. *)
Definition no_line_end (l : jsstring) : bool :=
  forallb (fun c => negb ((c =? 0x0A) || (c =? 0x0D))%N) l.

(** Lines written out with LF after each. *)
Definition terminated (ls : list jsstring) : jsstring :=
  List.concat (map (fun l => l ++ [0x0A%N]) ls).

(* ------------------------------------------------------------------------- *)
(** ** Successive notifications *)
(* ------------------------------------------------------------------------- *)

(** The bytes a cycle reads off a log holding [file]. *)
Definition bytes_read (file : list byte) (c : Cycle) : list byte :=
  match read_range c with
  | Some (start, end_) => createReadStream file start end_
  | None => []
  end.

(** The log is appended to chunk by chunk, and after each chunk
    [fs.watchFile] notifies the listener with the size the log then has:
    the bytes read at each notification. *)
Fixpoint tail_appends (utf8_decode : list byte -> jsstring)
         (st : TailState) (file : list byte) (appends : list (list byte))
  : list (list byte) :=
  match appends with
  | [] => []
  | chunk :: rest =>
      let file' := file ++ chunk in
      let (c, st') :=
        notify utf8_decode st file' {| size := List.length file' |} in
      bytes_read file' c :: tail_appends utf8_decode st' file' rest
  end.

(** Lines written out with CR LF after each, as on Windows. *)
Definition terminated_crlf (ls : list jsstring) : jsstring :=
  List.concat (map (fun l => l ++ [0x0D; 0x0A]%N) ls).

(* ------------------------------------------------------------------------- *)
(** ** CLI argument parsing *)
(* ------------------------------------------------------------------------- *)

(** What the last lines of the module end up doing. *)
Inductive CliAction : Type :=
| PrintCliHelp                      (* [printCliHelp()], exit 0 *)
| InitConfigCli                     (* [initConfigCli()], exit 0 *)
| UpdateLogPath (arg : jsstring)    (* [updateConfigKey("logPath",
                                        path.resolve(arg))], exit 0 *)
| Start.                            (* [start()] *)

(** [args.includes(x)]. *)
Definition includes (args : list jsstring) (x : jsstring) : bool :=
  existsb (str_eqb x) args.

(** [args[i] === x], [args[i]] being [undefined] past the end. *)
Definition arg_is (args : list jsstring) (i : nat) (x : jsstring) : bool :=
  match nth_error args i with
  | Some a => str_eqb a x
  | None => false
  end.

(** The dispatch on [process.argv.slice(2)]. *)
Definition cli (args : list jsstring) : CliAction :=
  if includes args (lit "--help") || includes args (lit "-h")
  then PrintCliHelp
  else if arg_is args 0 (lit "--init-config") then InitConfigCli
  else if arg_is args 0 (lit "--set-log-path") then
    match nth_error args 1 with
    | Some ((_ :: _) as arg1) => UpdateLogPath arg1
    | _ => Start
    end
  else Start.

(* ------------------------------------------------------------------------- *)
(** ** Loading the configuration *)
(* ------------------------------------------------------------------------- *)

Section Config.

(** JSON numbers, of which the program only asks whether they are truthy
    (not zero). *)
Variable number : Type.
Variable number_truthy : number -> bool.

(** What [JSON.parse] returns. *)
#[local] Unset Elimination Schemes.
Inductive Json : Type :=
| JNull
| JBool (b : bool)
| JNumber (n : number)
| JString (s : jsstring)
| JArray (items : list Json)
| JObject (props : list (jsstring * Json)).
#[local] Set Elimination Schemes.

(** Truthiness, as [||] tests it. *)
Definition truthy (v : Json) : bool :=
  match v with
  | JNull => false
  | JBool b => b
  | JNumber n => number_truthy n
  | JString s => match s with [] => false | _ :: _ => true end
  | JArray _ => true
  | JObject _ => true
  end.

(** An own property of a parsed object, which holds one value per key. *)
Fixpoint own_property (key : jsstring) (props : list (jsstring * Json))
  : option Json :=
  match props with
  | [] => None
  | (k, v) :: props' =>
      if str_eqb key k then Some v else own_property key props'
  end.

(** [cfg.logPath]: a [TypeError] on [null], [undefined] on the values that
    are not objects and on the objects without the property. *)
Definition get_logPath (cfg : Json) : JsError + option Json :=
  match cfg with
  | JNull => inl (TypeError "read properties of null (reading 'logPath')")
  | JObject props => inr (own_property (lit "logPath") props)
  | _ => inr None
  end.

(** [v || d]. *)
Definition value_or (v : option Json) (d : Json) : Json :=
  match v with
  | Some j => if truthy j then j else d
  | None => d
  end.

(** [JSON.parse], which throws on text that is not JSON. *)
Variable JSON_parse : jsstring -> JsError + Json.

(** [getDefaultLogPath()]. *)
Variable defaultLogPath : jsstring.

(** The configuration object. *)
Record Config : Type := { logPath : Json }.

Definition defaultConfig : Config := {| logPath := JString defaultLogPath |}.

(** What the file system has at [CONFIG_PATH]: nothing, something that
    cannot be read, or a file with its text. *)
Inductive ConfigFile : Type :=
| Absent
| ReadFails (e : JsError)
| Holds (raw : jsstring).

(** The text given to [console.error] when loading fails. *)
Definition load_failure (err : JsError) : jsstring :=
  lit "Failed to load config: " ++ err_message err.

(** [loadConfig()]: the lines printed on the error stream and the
    configuration returned. *)
Definition loadConfig (f : ConfigFile) : list jsstring * Config :=
  match f with
  | Absent => ([], defaultConfig)
  | ReadFails err => ([load_failure err], defaultConfig)
  | Holds raw =>
      match trim raw with
      | [] => ([], defaultConfig)
      | (_ :: _) as txt =>
          match JSON_parse txt with
          | inl err => ([load_failure err], defaultConfig)
          | inr cfg =>
              match get_logPath cfg with
              | inl err => ([load_failure err], defaultConfig)
              | inr v =>
                  ([], {| logPath := value_or v (logPath defaultConfig) |})
              end
          end
      end
  end.

(** [setupFromConfig()]: the log path taken from the configuration, or
    [None] when the function ends the process for want of one. *)
Definition setupFromConfig (f : ConfigFile) : option Json :=
  let cfg := snd (loadConfig f) in
  let LOG_PATH := logPath cfg in
  if negb (truthy LOG_PATH) then None else Some LOG_PATH.

End Config.

Arguments JNull {number}.
Arguments JBool {number} b.
Arguments JNumber {number} n.
Arguments JString {number} s.
Arguments JArray {number} items.
Arguments JObject {number} props.
Arguments defaultConfig {number} defaultLogPath.

(** A stand-in for [JSON.parse] that knows two texts: an object with a
    [logPath], and an empty object; every other text is refused. *)
Definition sample_parse (txt : jsstring) : JsError + Json nat :=
  if str_eqb txt (lit "{ logPath: /cs/console.log }")
  then inr (JObject [(lit "logPath", JString (lit "/cs/console.log"))])
  else if str_eqb txt (lit "{}") then inr (JObject [])
  else inl {| err_message := lit "Unexpected token" |}.

Definition sample_number_truthy (n : nat) : bool := negb (n =? 0).

(* ------------------------------------------------------------------------- *)
(** ** Facts about strings *)
(* ------------------------------------------------------------------------- *)

Lemma str_eqb_eq (a b : jsstring) : str_eqb a b = true <-> a = b.
Proof.
  revert b; induction a as [|x a IH]; intros [|y b]; simpl;
    try (split; [discriminate | discriminate]); try tauto.
  rewrite andb_true_iff, N.eqb_eq, IH.
  split; [intros [-> ->]; reflexivity | intros E; inversion E; auto].
Qed.

Lemma str_eqb_refl (a : jsstring) : str_eqb a a = true.
Proof. apply str_eqb_eq; reflexivity. Qed.

Lemma str_eqb_neq (a b : jsstring) : str_eqb a b = false <-> a <> b.
Proof.
  rewrite <- str_eqb_eq. destruct (str_eqb a b); split; congruence.
Qed.

(* ------------------------------------------------------------------------- *)
(** ** The matcher against the declarative pattern *)
(* ------------------------------------------------------------------------- *)

Section BacktrackingFacts.

Variable R : Type.
Implicit Types (k : Cont R) (s : jsstring).

Lemma class_spec p k s r :
  class p k s = Some r <->
  exists c s', s = c :: s' /\ p c = true /\ k s' = Some r.
Proof.
  unfold class. destruct s as [|c s'].
  - split; [discriminate | intros (? & ? & E & _); discriminate].
  - destruct (p c) eqn:Hp.
    + split; [intros H; exists c, s'; auto |].
      intros (c' & s'' & E & _ & H); inversion E; subst; exact H.
    + split; [discriminate |].
      intros (c' & s'' & E & Hp' & _); inversion E; subst; congruence.
Qed.

Lemma literal_spec l k s r :
  literal l k s = Some r <-> exists s', s = l ++ s' /\ k s' = Some r.
Proof.
  revert s; induction l as [|x l IH]; intros s; simpl.
  - split; [intros H; exists s; auto | intros (s' & -> & H); exact H].
  - rewrite class_spec. split.
    + intros (c & s' & -> & Hc & H). apply N.eqb_eq in Hc; subst c.
      apply IH in H as (s'' & -> & H). exists s''; auto.
    + intros (s' & -> & H). exists x, (l ++ s').
      rewrite N.eqb_refl. repeat split. apply IH. exists s'; auto.
Qed.

Lemma alt_sound (a b : Cont R) s r :
  alt a b s = Some r -> a s = Some r \/ b s = Some r.
Proof. unfold alt. destruct (a s); auto. Qed.

Lemma alt_complete (a b : Cont R) s :
  (exists r, a s = Some r) \/ (exists r, b s = Some r) ->
  exists r, alt a b s = Some r.
Proof.
  unfold alt. intros [[r H] | [r H]].
  - rewrite H; eauto.
  - destruct (a s); eauto.
Qed.

Lemma greedy_star_sound p (k : jsstring -> Cont R) s : forall acc r,
  greedy_star p k acc s = Some r ->
  exists a b, s = a ++ b /\ forallb p a = true /\ k (acc ++ a) b = Some r.
Proof.
  induction s as [|c s IH]; intros acc r; simpl.
  - intros H. exists [], []. rewrite (app_nil_r acc). simpl; auto.
  - destruct (p c) eqn:Hp.
    + destruct (greedy_star p k (acc ++ [c]) s) as [r'|] eqn:Hin.
      * intros E; inversion E; subst r'.
        apply IH in Hin as (a & b & -> & Ha & Hk).
        exists (c :: a), b. simpl. rewrite Hp, Ha.
        rewrite <- app_assoc in Hk. simpl in Hk. auto.
      * intros H. exists [], (c :: s). rewrite (app_nil_r acc). simpl; auto.
    + intros H. exists [], (c :: s). rewrite (app_nil_r acc). simpl; auto.
Qed.

Lemma greedy_star_complete p (k : jsstring -> Cont R) a : forall acc b,
  forallb p a = true ->
  (exists r, k (acc ++ a) b = Some r) ->
  exists r, greedy_star p k acc (a ++ b) = Some r.
Proof.
  induction a as [|x a IH]; intros acc b Ha Hk; simpl in *.
  - rewrite app_nil_r in Hk. destruct Hk as [r Hk].
    destruct b as [|c b]; simpl; [eauto|].
    destruct (p c); [|eauto].
    destruct (greedy_star p k (acc ++ [c]) b); eauto.
  - apply andb_true_iff in Ha as [Hx Ha]. rewrite Hx.
    destruct (IH (acc ++ [x]) b Ha) as [r Hr].
    + rewrite <- app_assoc. exact Hk.
    + rewrite Hr. eauto.
Qed.

Lemma greedy_plus_sound p (k : jsstring -> Cont R) s r :
  greedy_plus p k s = Some r ->
  exists a b,
    a <> [] /\ s = a ++ b /\ forallb p a = true /\ k a b = Some r.
Proof.
  unfold greedy_plus. destruct s as [|c s]; [discriminate|].
  destruct (p c) eqn:Hp; [|discriminate].
  intros H. apply greedy_star_sound in H as (a & b & -> & Ha & Hk).
  exists (c :: a), b. simpl. rewrite Hp, Ha.
  repeat split; [discriminate | exact Hk].
Qed.

Lemma greedy_plus_complete p (k : jsstring -> Cont R) a b :
  a <> [] -> forallb p a = true ->
  (exists r, k a b = Some r) ->
  exists r, greedy_plus p k (a ++ b) = Some r.
Proof.
  destruct a as [|c a]; [congruence|]. intros _ Ha Hk. simpl in *.
  apply andb_true_iff in Ha as [Hc Ha]. rewrite Hc.
  apply greedy_star_complete; assumption.
Qed.

Lemma search_sound (m : Cont R) s r :
  search m s = Some r -> exists pre s', s = pre ++ s' /\ m s' = Some r.
Proof.
  induction s as [|c s IH]; simpl.
  - destruct (m []) eqn:E; [|discriminate].
    intros H; inversion H; subst. exists [], []. auto.
  - destruct (m (c :: s)) eqn:E.
    + intros H; inversion H; subst. exists [], (c :: s). auto.
    + intros H. apply IH in H as (pre & s' & -> & H).
      exists (c :: pre), s'. auto.
Qed.

Lemma search_complete (m : Cont R) pre : forall s,
  (exists r, m s = Some r) -> exists r, search m (pre ++ s) = Some r.
Proof.
  induction pre as [|c pre IH]; intros s [r H]; simpl.
  - destruct s; simpl; rewrite H; eauto.
  - destruct (m (c :: pre ++ s)); eauto.
Qed.

End BacktrackingFacts.

Lemma after_team_sound tm s g :
  after_team tm s = Some g ->
  exists ws player sp msg post,
    g = (tm, player, msg)
    /\ s = lit "]" ++ ws ++ player ++ lit ":" ++ sp :: msg ++ post
    /\ ws <> [] /\ forallb is_space ws = true
    /\ player <> [] /\ forallb not_colon player = true
    /\ is_space sp = true
    /\ msg <> [] /\ forallb dot msg = true.
Proof.
  unfold after_team. intros H.
  apply literal_spec in H as (s1 & -> & H).
  apply greedy_plus_sound in H as (ws & s2 & Hws & -> & Hsp & H).
  apply greedy_plus_sound in H as (player & s3 & Hpl & -> & Hnc & H).
  apply literal_spec in H as (s4 & -> & H).
  apply class_spec in H as (sp & s5 & -> & Hs & H).
  apply greedy_plus_sound in H as (msg & post & Hm & -> & Hdot & H).
  inversion H; subst g.
  exists ws, player, sp, msg, post. repeat split; assumption.
Qed.

Lemma after_team_complete tm ws player sp msg post :
  ws <> [] -> forallb is_space ws = true ->
  player <> [] -> forallb not_colon player = true ->
  is_space sp = true ->
  msg <> [] -> forallb dot msg = true ->
  exists g,
    after_team tm (lit "]" ++ ws ++ player ++ lit ":" ++ sp :: msg ++ post)
    = Some g.
Proof.
  intros Hws Hsp Hpl Hnc Hs Hm Hdot. unfold after_team.
  cut (exists g,
         greedy_plus is_space (fun _ =>
           greedy_plus not_colon (fun pl =>
             literal (lit ":")
               (class is_space
                  (greedy_plus dot (fun raw _ => Some (tm, pl, raw))))))
           (ws ++ player ++ lit ":" ++ sp :: msg ++ post) = Some g).
  { intros [g Hg]. exists g. apply literal_spec. eauto. }
  apply greedy_plus_complete; [assumption .. |].
  apply greedy_plus_complete; [assumption .. |].
  cut (exists g,
         greedy_plus dot (fun raw (_ : jsstring) => Some (tm, player, raw))
           (msg ++ post) = Some g).
  { intros [g Hg]. exists g. apply literal_spec.
    exists (sp :: msg ++ post). split; [reflexivity|].
    apply class_spec. exists sp, (msg ++ post). auto. }
  apply greedy_plus_complete; eauto.
Qed.

Lemma chat_regex_here_sound s tm player msg :
  chat_regex_here s = Some (tm, player, msg) -> ChatShape s tm player msg.
Proof.
  unfold chat_regex_here. intros H.
  apply literal_spec in H as (s1 & -> & H).
  assert (exists t s2, In t [lit "CT"; lit "T"; lit "ALL"]
                       /\ s1 = t ++ s2
                       /\ after_team t s2 = Some (tm, player, msg))
    as (t & s2 & Ht & -> & Ha).
  { apply alt_sound in H as [H | H]; [|apply alt_sound in H as [H | H]];
      apply literal_spec in H as (s2 & -> & H);
      eexists _, s2; (split; [|split; [reflexivity | exact H]]);
      simpl; auto. }
  apply after_team_sound in Ha
    as (ws & pl & sp & m & post & E & -> & Hws & Hsp & Hpl & Hnc & Hs & Hm
        & Hd).
  inversion E; subst.
  exists ws, sp, post. repeat split; assumption.
Qed.

Lemma chat_regex_here_complete s tm player msg :
  ChatShape s tm player msg -> exists g, chat_regex_here s = Some g.
Proof.
  intros (ws & sp & post & -> & Ht & Hws & Hsp & Hpl & Hnc & Hs & Hm & Hd).
  destruct (@after_team_complete tm ws player sp msg post
              Hws Hsp Hpl Hnc Hs Hm Hd) as [g Hg].
  unfold chat_regex_here.
  cut (exists g',
         alt (literal (lit "CT") (after_team (lit "CT")))
           (alt (literal (lit "T") (after_team (lit "T")))
              (literal (lit "ALL") (after_team (lit "ALL"))))
           (tm ++ lit "]" ++ ws ++ player ++ lit ":" ++ sp :: msg ++ post)
         = Some g').
  { intros [g' Hg']. exists g'. apply literal_spec. eauto. }
  destruct Ht as [<- | [<- | [<- | []]]].
  - apply alt_complete. left. exists g. apply literal_spec. eauto.
  - apply alt_complete. right. apply alt_complete. left.
    exists g. apply literal_spec. eauto.
  - apply alt_complete. right. apply alt_complete. right.
    exists g. apply literal_spec. eauto.
Qed.

(** The matcher finds a match exactly on the lines of the pattern, and what
    it captures is a reading of the line by the pattern. *)
Lemma chat_match_sound line tm player msg :
  chat_match line = Some (tm, player, msg) ->
  exists pre s, line = pre ++ s /\ ChatShape s tm player msg.
Proof.
  unfold chat_match. intros H.
  apply search_sound in H as (pre & s & -> & H).
  exists pre, s. split; [reflexivity|].
  apply chat_regex_here_sound; assumption.
Qed.

Lemma chat_match_some_iff line :
  (exists g, chat_match line = Some g) <-> MatchesChatPattern line.
Proof.
  split.
  - intros [[[tm player] msg] H].
    apply chat_match_sound in H as (pre & s & E & Hs).
    exists pre, s, tm, player, msg. auto.
  - intros (pre & s & tm & player & msg & -> & Hs).
    apply search_complete. eapply chat_regex_here_complete; eassumption.
Qed.

Lemma chat_match_none_iff line :
  chat_match line = None <-> ~ MatchesChatPattern line.
Proof.
  rewrite <- chat_match_some_iff. destruct (chat_match line) as [g|].
  - split; [discriminate | intros H; exfalso; apply H; eauto].
  - split; [intros _ [g H]; discriminate | reflexivity].
Qed.

(* ------------------------------------------------------------------------- *)
(** ** Running asynchronous bodies *)
(* ------------------------------------------------------------------------- *)

Lemma or_else_some_self (s : jsstring) : or_else (Some s) [] = s.
Proof. destruct s; reflexivity. Qed.

Lemma run_ConsoleLog {A} (o : Oracle) l (k : Async A) :
  run o (ConsoleLog l k) = (Printed l :: trace o k, result o k).
Proof. unfold trace, result. simpl. destruct (run o k). reflexivity. Qed.

Lemma run_bind {A B} (o : Oracle) (m : Async A) (f : A -> Async B) :
  run o (bind m f) =
  match run o m with
  | (t, inl e) => (t, inl e)
  | (t, inr a) => let (t', r) := run o (f a) in (t ++ t', r)
  end.
Proof.
  induction m as [a | e | l k IH | txt opts k IH]; simpl.
  - destruct (run o (f a)); reflexivity.
  - reflexivity.
  - rewrite IH. destruct (run o k) as [t [e | a]]; [reflexivity|].
    destruct (run o (f a)); reflexivity.
  - rewrite IH. destruct (run o (k (o txt opts))) as [t [e | a]];
      [reflexivity|].
    destruct (run o (f a)); reflexivity.
Qed.

Lemma run_try_catch {A} (o : Oracle) (m : Async A) h :
  run o (try_catch m h) =
  match run o m with
  | (t, inr a) => (t, inr a)
  | (t, inl e) => let (t', r) := run o (h e) in (t ++ t', r)
  end.
Proof.
  induction m as [a | e | l k IH | txt opts k IH]; simpl.
  - reflexivity.
  - destruct (run o (h e)); reflexivity.
  - rewrite IH. destruct (run o k) as [t [e | a]]; [|reflexivity].
    destruct (run o (h e)); reflexivity.
  - rewrite IH. destruct (run o (k (o txt opts))) as [t [e | a]];
      [|reflexivity].
    destruct (run o (h e)); reflexivity.
Qed.

(** Every run of [smartTranslate], by what the service answers. *)
Lemma run_smartTranslate (o : Oracle) (txt toLang : jsstring) :
  run o (smartTranslate txt toLang) =
  match o txt (detect_opts toLang) with
  | Rejected ThrownUndefined =>
      ([Called txt (detect_opts toLang)],
       inl (ThrownError
              (TypeError
                 "read properties of undefined (reading 'message')")))
  | Rejected ThrownNull =>
      ([Called txt (detect_opts toLang)],
       inl (ThrownError
              (TypeError "read properties of null (reading 'message')")))
  | Rejected (ThrownError e) =>
      ([Called txt (detect_opts toLang); Printed (warning e)],
       inr (fallback txt))
  | Resolved Nullish =>
      ([Called txt (detect_opts toLang);
        Printed
          (warning
             (TypeError "read properties of undefined (reading 'from')"))],
       inr (fallback txt))
  | Resolved (Obj res) =>
      if CYRILLIC_REGEX_test txt
         && negb (str_eqb (toLowerCase (or_else (iso res) [])) (lit "ru"))
      then
        ([Called txt (detect_opts toLang); Called txt (forced_opts toLang)],
         inr match o txt (forced_opts toLang) with
             | Resolved (Obj forced) => set_forcedFrom forced (lit "ru")
             | _ => res
             end)
      else ([Called txt (detect_opts toLang)], inr res)
  end.
Proof.
  unfold smartTranslate, translate. simpl.
  destruct (o txt (detect_opts toLang)) as [[| | [m]] | [| res]]; simpl;
    try reflexivity.
  destruct (CYRILLIC_REGEX_test txt
            && negb (str_eqb (toLowerCase (or_else (iso res) [])) (lit "ru")));
    simpl; [|reflexivity].
  destruct (o txt (forced_opts toLang)) as [e | [| forced]]; reflexivity.
Qed.

(** [smartTranslate] fulfils unless the first call is rejected with
    [undefined] or [null]. *)
Lemma smartTranslate_fulfils (o : Oracle) (txt toLang : jsstring) :
  o txt (detect_opts toLang) <> Rejected ThrownUndefined ->
  o txt (detect_opts toLang) <> Rejected ThrownNull ->
  exists res, result o (smartTranslate txt toLang) = inr res.
Proof.
  intros Hu Hn. unfold result. rewrite run_smartTranslate.
  destruct (o txt (detect_opts toLang)) as [[| | e] | [| res]]; simpl;
    eauto; try congruence.
  destruct (_ && _); simpl; eauto.
Qed.

Lemma run_autoTranslateToConsole (o : Oracle) (ev : ChatEvent) c msg :
  message ev = Some (c :: msg) ->
  run o (autoTranslateToConsole ev) =
  match run o (smartTranslate (c :: msg) AUTO_TRANSLATE_TARGET) with
  | (t, inl e) => (t, inl e)
  | (t, inr res) =>
      (t ++ (if str_eqb (source_iso res) (toLowerCase AUTO_TRANSLATE_TARGET)
             then []
             else [Printed (translated_line (team ev) (sender ev)
                              (originalLangReadable res) res)]),
       inr tt)
  end.
Proof.
  intros Hm. unfold autoTranslateToConsole. rewrite Hm. simpl negb. cbv iota.
  rewrite run_bind.
  destruct (run o (smartTranslate (c :: msg) AUTO_TRANSLATE_TARGET))
    as [t [e | res]]; [reflexivity|].
  destruct (str_eqb (source_iso res) (toLowerCase AUTO_TRANSLATE_TARGET));
    reflexivity.
Qed.

Lemma classify_none line :
  classify line = None -> handleLine line = Ret tt.
Proof.
  unfold classify, handleLine.
  destruct (chat_match line) as [[[tm player] raw]|];
    [discriminate | reflexivity].
Qed.

Lemma classify_some line ev :
  classify line = Some ev ->
  exists msg,
    message ev = Some msg
    /\ handleLine line
       = ConsoleLog (chat_line (team ev) (sender ev) msg)
           (autoTranslateToConsole ev).
Proof.
  unfold classify, handleLine.
  destruct (chat_match line) as [[[tm player] raw]|]; [|discriminate].
  intros E; inversion E; subst ev; simpl. eauto.
Qed.

Lemma handleLine_matched line tm player messageRaw :
  chat_match line = Some (tm, player, messageRaw) ->
  handleLine line
  = ConsoleLog (chat_line tm (trim player) (trim messageRaw))
      (autoTranslateToConsole
         {| team := tm; sender := trim player;
            message := Some (trim messageRaw) |}).
Proof.
  intros H. unfold handleLine. rewrite H. cbv beta iota zeta.
  rewrite !or_else_some_self. reflexivity.
Qed.

(* ------------------------------------------------------------------------- *)
(** ** The translation gateway *)
(* ------------------------------------------------------------------------- *)

(** C1 does not hold of the code.  [smartTranslate] means to turn every
    failure into the original text with detected language ["unknown"],
    after one warning line, and does so when the [translate] call is
    rejected with an error or resolves to no object; a call that resolves
    to an object never makes it reject.  But its [catch] reads
    [err.message] unguarded: when the call is rejected with [undefined] or
    [null] that reading throws, no warning is printed, and [smartTranslate]
    rejects to its caller with the [TypeError]; so does the handler of the
    chat line. *)
Theorem smartTranslate_rejects_without_reason
        (o : Oracle) (txt toLang : jsstring) :
  (o txt (detect_opts toLang) = Rejected ThrownUndefined ->
   run o (smartTranslate txt toLang)
   = ([Called txt (detect_opts toLang)],
      inl (ThrownError
             (TypeError
                "read properties of undefined (reading 'message')"))))
  /\ (o txt (detect_opts toLang) = Rejected ThrownNull ->
      run o (smartTranslate txt toLang)
      = ([Called txt (detect_opts toLang)],
         inl (ThrownError
                (TypeError "read properties of null (reading 'message')"))))
  /\ (forall line tm player messageRaw,
        chat_match line = Some (tm, player, messageRaw) ->
        txt = trim messageRaw -> txt <> [] ->
        toLang = AUTO_TRANSLATE_TARGET ->
        o txt (detect_opts toLang) = Rejected ThrownUndefined ->
        run o (handleLine line)
        = ([Printed (chat_line tm (trim player) txt);
            Called txt (detect_opts toLang)],
           inl (ThrownError
                  (TypeError
                     "read properties of undefined (reading 'message')"))))
  /\ (forall e,
        o txt (detect_opts toLang) = Rejected (ThrownError e) ->
        run o (smartTranslate txt toLang)
        = ([Called txt (detect_opts toLang); Printed (warning e)],
           inr {| text := txt; iso := Some (lit "unknown");
                  __forcedFrom := None |})
        /\ plain_text (warning e)
           = [0x201A; 0xF6; 0x2020; 0xD4; 0x220F; 0xE8]%N
               ++ lit " Translation failed: " ++ err_message e)
  /\ (o txt (detect_opts toLang) = Resolved Nullish ->
      exists e,
        run o (smartTranslate txt toLang)
        = ([Called txt (detect_opts toLang); Printed (warning e)],
           inr {| text := txt; iso := Some (lit "unknown");
                  __forcedFrom := None |}))
  /\ (forall res,
        o txt (detect_opts toLang) = Resolved (Obj res) ->
        exists r, result o (smartTranslate txt toLang) = inr r).
Proof.
  repeat split.
  - intros H. rewrite run_smartTranslate, H. reflexivity.
  - intros H. rewrite run_smartTranslate, H. reflexivity.
  - intros line tm player messageRaw Hm -> Hne -> H.
    rewrite (handleLine_matched _ Hm), run_ConsoleLog.
    destruct (trim messageRaw) as [|c msg] eqn:E; [congruence|].
    unfold trace, result.
    rewrite (run_autoTranslateToConsole o _ (c:=c) (msg:=msg))
      by reflexivity.
    rewrite run_smartTranslate, H. reflexivity.
  - rewrite run_smartTranslate, H. reflexivity.
  - unfold plain_text, warning. simpl. rewrite app_nil_r. reflexivity.
  - intros H. rewrite run_smartTranslate, H. eexists; reflexivity.
  - intros res H. apply smartTranslate_fulfils; congruence.
Qed.

Lemma smartTranslate_rejects_without_reason_witness :
  run rejects_with_undefined (smartTranslate privet (lit "en"))
  = ([Called privet (detect_opts (lit "en"))],
     inl (ThrownError
            (TypeError "read properties of undefined (reading 'message')")))
  /\ run offline (smartTranslate privet (lit "en"))
     = ([Called privet (detect_opts (lit "en"));
         Printed (warning {| err_message := lit "network" |})],
        inr {| text := privet; iso := Some (lit "unknown");
               __forcedFrom := None |}).
Proof.
  split.
  - apply (proj1 (smartTranslate_rejects_without_reason
                    rejects_with_undefined privet (lit "en"))).
    reflexivity.
  - apply (proj1 (proj2 (proj2 (proj2
             (smartTranslate_rejects_without_reason offline privet
                (lit "en")))))
             {| err_message := lit "network" |}).
    reflexivity.
Defined.

(** C2. When the text holds a code unit of the Cyrillic block and the first
    call resolves to a result whose detected language, lowercased, is not
    ["ru"], a second call is issued with source language ["ru"].  When that
    call resolves to a result, this result is returned with [__forcedFrom]
    set to ["ru"]; when it is rejected, or resolves to no object, the first
    result is returned as it was. *)
Theorem cyrillic_retry_forces_ru (o : Oracle) (txt toLang : jsstring)
        (res : TranslationResult) :
  (exists c, In c txt /\ (0x0400 <= c <= 0x04FF)%N) ->
  o txt (detect_opts toLang) = Resolved (Obj res) ->
  toLowerCase (or_else (iso res) []) <> lit "ru" ->
  trace o (smartTranslate txt toLang)
  = [Called txt (detect_opts toLang);
     Called txt {| opt_from := Some (lit "ru"); opt_to := toLang |}]
  /\ (forall forced,
        o txt (forced_opts toLang) = Resolved (Obj forced) ->
        result o (smartTranslate txt toLang)
        = inr {| text := text forced; iso := iso forced;
                 __forcedFrom := Some (lit "ru") |})
  /\ (forall e,
        o txt (forced_opts toLang) = Rejected e ->
        result o (smartTranslate txt toLang) = inr res)
  /\ (o txt (forced_opts toLang) = Resolved Nullish ->
      result o (smartTranslate txt toLang) = inr res).
Proof.
  intros (c & Hin & Hlo & Hhi) Hfirst Hguess.
  assert (Hcyr : CYRILLIC_REGEX_test txt = true).
  { apply existsb_exists. exists c. split; [assumption|].
    unfold is_cyrillic. apply andb_true_iff.
    split; apply N.leb_le; assumption. }
  apply str_eqb_neq in Hguess.
  unfold trace, result. rewrite run_smartTranslate, Hfirst, Hcyr, Hguess.
  simpl. split; [reflexivity|].
  split; [|split]; intros; rewrite H; reflexivity.
Qed.

Lemma cyrillic_retry_forces_ru_witness :
  result guesses_uk (smartTranslate privet (lit "en"))
  = inr {| text := lit "Hello"; iso := Some (lit "ru");
           __forcedFrom := Some (lit "ru") |}.
Proof.
  refine (proj1 (proj2
    (@cyrillic_retry_forces_ru guesses_uk privet (lit "en")
       {| text := lit "Hi"; iso := Some (lit "uk"); __forcedFrom := None |}
       _ _ _))
    {| text := lit "Hello"; iso := Some (lit "ru"); __forcedFrom := None |}
    _).
  - exists 0x043F%N. split; [simpl; auto | lia].
  - reflexivity.
  - discriminate.
  - reflexivity.
Defined.

(* ------------------------------------------------------------------------- *)
(** ** The event pipeline *)
(* ------------------------------------------------------------------------- *)

Lemma trace_ConsoleLog {A} (o : Oracle) l (k : Async A) :
  trace o (ConsoleLog l k) = Printed l :: trace o k.
Proof. unfold trace. simpl. destruct (run o k). reflexivity. Qed.

Lemma printed_lines_app (t1 t2 : list Event) :
  printed_lines (t1 ++ t2) = printed_lines t1 ++ printed_lines t2.
Proof.
  induction t1 as [|[l | txt opts] t1 IH]; simpl; congruence.
Qed.

(** [smartTranslate] prints nothing, or one warning next to the fallback. *)
Lemma smartTranslate_printed (o : Oracle) (txt toLang : jsstring) res :
  result o (smartTranslate txt toLang) = inr res ->
  printed_lines (trace o (smartTranslate txt toLang)) = []
  \/ (exists e,
        printed_lines (trace o (smartTranslate txt toLang)) = [warning e]
        /\ res = fallback txt).
Proof.
  unfold result, trace. rewrite run_smartTranslate.
  destruct (o txt (detect_opts toLang)) as [[| | e] | [| r]]; simpl;
    try discriminate.
  - intros E; inversion E. right. eauto.
  - intros E; inversion E. right. eauto.
  - destruct (_ && _); simpl; auto.
Qed.

Lemma trace_handleLine (o : Oracle) line ev msg :
  classify line = Some ev -> message ev = Some msg ->
  trace o (handleLine line)
  = Printed (chat_line (team ev) (sender ev) msg)
      :: trace o (autoTranslateToConsole ev).
Proof.
  intros Hc Hm. apply classify_some in Hc as (msg' & Hm' & ->).
  assert (msg' = msg) by congruence. subst msg'.
  unfold trace. simpl. destruct (run o (autoTranslateToConsole ev)).
  reflexivity.
Qed.

(** C5. For a chat line with a message to translate, let [res] be what the
    gateway returns.  When the forced language, or else the detected one,
    equals the target language up to case, the raw chat line is the only
    line printed.  Otherwise exactly one translated line is printed, last,
    after the raw line and the gateway's warning if it gave one.  It holds
    the team in brackets, the sender, a name for the source language, the
    target code in upper case and the translated text, in the layout of
    the source's template; for an ASCII language code the name is the one
    [langName] gives for the code. *)
Theorem translated_line_unless_target_language
        (o : Oracle) line ev msg res :
  classify line = Some ev ->
  message ev = Some msg -> msg <> [] ->
  result o (smartTranslate msg AUTO_TRANSLATE_TARGET) = inr res ->
  let resolved :=
    or_else (__forcedFrom res) (or_else (iso res) (lit "unknown")) in
  let raw := chat_line (team ev) (sender ev) msg in
  (toLowerCase resolved = toLowerCase AUTO_TRANSLATE_TARGET ->
   printed_lines (trace o (handleLine line)) = [raw])
  /\ (toLowerCase resolved <> toLowerCase AUTO_TRANSLATE_TARGET ->
      exists warnings name,
        (warnings = [] \/ exists e, warnings = [warning e])
        /\ printed_lines (trace o (handleLine line))
           = raw :: warnings
               ++ [translated_line (team ev) (sender ev) name res]
        /\ (Forall (fun c => (c < 128)%N) resolved ->
            name = langName (toLowerCase resolved))
        /\ plain_text (translated_line (team ev) (sender ev) name res)
           = [0xF8FF; 0xFC; 0xE5; 0xE7]%N ++ lit " [" ++ team ev
               ++ lit "] " ++ sender ev ++ lit " (" ++ name ++ lit " "
               ++ [0x201A; 0xDC; 0xED]%N ++ lit " "
               ++ toUpperCase AUTO_TRANSLATE_TARGET ++ lit "): "
               ++ text res).
Proof.
  intros Hc Hm Hne Hres resolved raw.
  destruct msg as [|c msg]; [congruence|]. clear Hne.
  assert (Htr : trace o (handleLine line)
                = Printed raw
                    :: trace o (smartTranslate (c :: msg) AUTO_TRANSLATE_TARGET)
                    ++ (if str_eqb (source_iso res)
                             (toLowerCase AUTO_TRANSLATE_TARGET)
                        then []
                        else [Printed
                                (translated_line (team ev) (sender ev)
                                   (langName (source_iso res)) res)])).
  { rewrite (trace_handleLine o _ Hc Hm). f_equal.
    unfold trace, result in *. rewrite (run_autoTranslateToConsole o ev Hm).
    destruct (run o (smartTranslate (c :: msg) AUTO_TRANSLATE_TARGET))
      as [t r]. simpl in Hres. subst r. reflexivity. }
  pose proof (smartTranslate_printed o _ _ Hres) as Hpr.
  change (toLowerCase resolved) with (source_iso res) in *.
  split.
  - intros Heq. rewrite Htr. apply str_eqb_eq in Heq. rewrite Heq.
    rewrite app_nil_r. simpl.
    destruct Hpr as [-> | (e & _ & ->)]; [reflexivity|].
    apply str_eqb_eq in Heq. discriminate Heq.
  - intros Hneq. apply str_eqb_neq in Hneq. rewrite Htr, Hneq. simpl.
    rewrite printed_lines_app. simpl.
    exists (printed_lines
              (trace o (smartTranslate (c :: msg) AUTO_TRANSLATE_TARGET))),
      (langName (source_iso res)).
    split; [destruct Hpr as [-> | (e & -> & _)]; eauto|].
    split; [reflexivity|]. split; [reflexivity|].
    unfold translated_line, plain_text. simpl. rewrite app_nil_r.
    repeat (rewrite <- app_assoc; simpl). reflexivity.
Qed.

Lemma translated_line_unless_target_language_witness :
  printed_lines (trace detects_en (handleLine (lit "[CT] bob: hello")))
  = [chat_line (lit "CT") (lit "bob") (lit "hello")]
  /\ exists warnings,
       printed_lines (trace detects_de (handleLine (lit "[CT] bob: guten tag")))
       = chat_line (lit "CT") (lit "bob") (lit "guten tag")
           :: warnings
           ++ [translated_line (lit "CT") (lit "bob") (lit "German")
                 {| text := lit "good day"; iso := Some (lit "de");
                    __forcedFrom := None |}].
Proof.
  split.
  - refine (proj1
      (@translated_line_unless_target_language detects_en
         (lit "[CT] bob: hello")
         {| team := lit "CT"; sender := lit "bob";
            message := Some (lit "hello") |}
         (lit "hello")
         {| text := lit "hello"; iso := Some (lit "EN");
            __forcedFrom := None |} _ _ _ _) _);
      try reflexivity; discriminate.
  - destruct (proj2
      (@translated_line_unless_target_language detects_de
         (lit "[CT] bob: guten tag")
         {| team := lit "CT"; sender := lit "bob";
            message := Some (lit "guten tag") |}
         (lit "guten tag")
         {| text := lit "good day"; iso := Some (lit "de");
            __forcedFrom := None |}
         eq_refl eq_refl ltac:(discriminate) eq_refl)
      ltac:(discriminate)) as (warnings & name & _ & H & Hname & _).
    exists warnings. rewrite H, Hname; [reflexivity|].
    vm_compute. repeat constructor.
Defined.

(* ------------------------------------------------------------------------- *)
(** ** The line classifier *)
(* ------------------------------------------------------------------------- *)

(** C6. The line ["[T]  Player123: hello world"] is classified as a chat
    event of team ["T"], sender ["Player123"] and message ["hello world"]:
    the sender group runs up to the first colon, the message group is what
    follows the colon and its space, and both are trimmed. *)
Theorem classify_example :
  chat_match (lit "[T]  Player123: hello world")
  = Some (lit "T", lit "Player123", lit "hello world")
  /\ classify (lit "[T]  Player123: hello world")
     = Some {| team := lit "T"; sender := lit "Player123";
               message := Some (lit "hello world") |}.
Proof. split; vm_compute; reflexivity. Qed.

(** C7, as stated, fails.  The line ["[T]  : hi"] matches with a sender
    group of one space, so its sender is empty after trimming; yet its raw
    line is printed and its message is sent to the service.  The line
    ["[T] bob:   "] has an empty message after trimming and its raw line is
    printed all the same. *)
Lemma empty_sender_or_message_not_rejected :
  ~ (forall line ev,
       classify line = Some ev ->
       sender ev = [] \/ message ev = Some [] ->
       forall o, trace o (handleLine line) = [])
  /\ classify (lit "[T]  : hi")
     = Some {| team := lit "T"; sender := []; message := Some (lit "hi") |}
  /\ trace detects_en (handleLine (lit "[T]  : hi"))
     = [Printed (chat_line (lit "T") [] (lit "hi"));
        Called (lit "hi") (detect_opts (lit "en"))]
  /\ trace detects_en (handleLine (lit "[T] bob:   "))
     = [Printed (chat_line (lit "T") (lit "bob") [])].
Proof.
  split; [|repeat split; vm_compute; reflexivity].
  intros H.
  specialize (H (lit "[T]  : hi")
                {| team := lit "T"; sender := [];
                   message := Some (lit "hi") |}
                eq_refl (or_introl eq_refl) detects_en).
  vm_compute in H. discriminate H.
Qed.

(** C7, amended.  A matched line is never rejected for what trimming leaves
    of its groups.  When the message is empty after trimming, the raw chat
    line is printed and nothing is sent to the service; when it is not, the
    raw chat line is printed and the message is sent to the service next,
    whatever the sender. *)
Theorem empty_message_is_printed_not_translated line tm player messageRaw :
  chat_match line = Some (tm, player, messageRaw) ->
  (trim messageRaw = [] ->
   forall o,
     trace o (handleLine line) = [Printed (chat_line tm (trim player) [])])
  /\ (trim messageRaw <> [] ->
      forall o, exists rest,
        trace o (handleLine line)
        = Printed (chat_line tm (trim player) (trim messageRaw))
            :: Called (trim messageRaw) (detect_opts AUTO_TRANSLATE_TARGET)
            :: rest).
Proof.
  intros Hm. rewrite (handleLine_matched _ Hm). split.
  - intros -> o. reflexivity.
  - intros Hne o. destruct (trim messageRaw) as [|c msg] eqn:E; [congruence|].
    rewrite trace_ConsoleLog. unfold trace.
    rewrite (run_autoTranslateToConsole o _ (c:=c) (msg:=msg))
      by reflexivity.
    rewrite run_smartTranslate.
    destruct (o (c :: msg) (detect_opts AUTO_TRANSLATE_TARGET))
      as [[| | e] | [| res]]; simpl; eauto.
    destruct (_ && _); simpl; eauto.
Qed.

Lemma empty_message_is_printed_not_translated_witness :
  trace offline (handleLine (lit "[T] bob:   "))
  = [Printed (chat_line (lit "T") (trim (lit "bob")) [])].
Proof.
  apply (proj1 (@empty_message_is_printed_not_translated
                  (lit "[T] bob:   ") (lit "T") (lit "bob") (lit "  ")
                  eq_refl)).
  reflexivity.
Defined.

(** C8. A line that the chat pattern does not match gives no event and is
    passed over in silence: [handleLine] returns at once, printing nothing,
    calling nothing and raising nothing. *)
Theorem unmatched_line_is_ignored line :
  ~ MatchesChatPattern line ->
  classify line = None
  /\ handleLine line = Ret tt
  /\ forall o, run o (handleLine line) = ([], inr tt).
Proof.
  intros H. apply chat_match_none_iff in H.
  assert (Hc : classify line = None) by (unfold classify; rewrite H; auto).
  split; [exact Hc|]. rewrite (classify_none _ Hc). auto.
Qed.

Lemma unmatched_line_is_ignored_witness :
  run offline (handleLine (lit "[T] Player123 killed bob with ak47"))
  = ([], inr tt).
Proof.
  apply (@unmatched_line_is_ignored
           (lit "[T] Player123 killed bob with ak47")).
  apply chat_match_none_iff. vm_compute. reflexivity.
Defined.

(** C9. For every line classified as a chat event, the raw chat line is
    the first thing the handler does, in the turn in which it is called and
    before it first hands control back; every call to the service and the
    translated line of the event come after it in the run. *)
Theorem raw_line_precedes_translation line ev msg :
  classify line = Some ev ->
  message ev = Some msg ->
  let raw := chat_line (team ev) (sender ev) msg in
  (exists rest, sync_output (handleLine line) = raw :: rest)
  /\ forall o,
       trace o (handleLine line)
       = Printed raw :: trace o (autoTranslateToConsole ev)
       /\ forall n e,
            nth_error (trace o (handleLine line)) n = Some e ->
            e <> Printed raw -> 0 < n.
Proof.
  intros Hc Hm raw. split.
  - destruct (classify_some _ Hc) as (msg' & Hm' & ->).
    assert (msg' = msg) by congruence. subst msg'.
    simpl. eauto.
  - intros o. rewrite (trace_handleLine o _ Hc Hm). split; [reflexivity|].
    intros [|n] e; simpl; [|lia].
    intros E Hne. inversion E; subst e. exfalso; apply Hne; reflexivity.
Qed.

Lemma raw_line_precedes_translation_witness :
  trace detects_de (handleLine (lit "[ALL] eve: hallo"))
  = Printed (chat_line (lit "ALL") (lit "eve") (lit "hallo"))
      :: trace detects_de
           (autoTranslateToConsole
              {| team := lit "ALL"; sender := lit "eve";
                 message := Some (lit "hallo") |}).
Proof.
  apply (proj2 (@raw_line_precedes_translation
                  (lit "[ALL] eve: hallo")
                  {| team := lit "ALL"; sender := lit "eve";
                     message := Some (lit "hallo") |}
                  (lit "hallo") eq_refl eq_refl) detects_de).
Defined.

(** C10. Given an event whose message is the empty string or is missing,
    [autoTranslateToConsole] returns at once: no call to the service, no
    line printed.  For a matched line whose message is empty after
    trimming, the run of [handleLine] is the raw chat line and nothing
    else. *)
Theorem empty_message_skips_translation :
  (forall ev,
     message ev = Some [] \/ message ev = None ->
     autoTranslateToConsole ev = Ret tt
     /\ forall o, run o (autoTranslateToConsole ev) = ([], inr tt))
  /\ (forall line ev,
        classify line = Some ev ->
        message ev = Some [] ->
        forall o,
          run o (handleLine line)
          = ([Printed (chat_line (team ev) (sender ev) [])], inr tt)).
Proof.
  assert (H : forall ev, message ev = Some [] \/ message ev = None ->
                         autoTranslateToConsole ev = Ret tt).
  { intros ev [Hm | Hm]; unfold autoTranslateToConsole; rewrite Hm;
      reflexivity. }
  split.
  - intros ev Hm. rewrite (H ev Hm). auto.
  - intros line ev Hc Hm o.
    apply classify_some in Hc as (msg & Hm' & ->).
    assert (msg = []) by congruence. subst msg.
    rewrite (H ev (or_introl Hm)). reflexivity.
Qed.

Lemma empty_message_skips_translation_witness :
  autoTranslateToConsole
    {| team := lit "T"; sender := lit "bob"; message := None |} = Ret tt
  /\ run detects_de (handleLine (lit "[T] bob:   "))
     = ([Printed (chat_line (lit "T") (lit "bob") [])], inr tt).
Proof.
  split.
  - apply (proj1 empty_message_skips_translation
             {| team := lit "T"; sender := lit "bob"; message := None |}).
    right. reflexivity.
  - apply (proj2 empty_message_skips_translation (lit "[T] bob:   ")
             {| team := lit "T"; sender := lit "bob";
                message := Some [] |}); reflexivity.
Defined.

(* ------------------------------------------------------------------------- *)
(** ** The incremental tailer *)
(* ------------------------------------------------------------------------- *)

Lemma readline_lines_line (l : jsstring) : forall buf rest,
  no_line_end l = true ->
  readline_lines buf (l ++ 0x0A%N :: rest)
  = (buf ++ l) :: readline_lines [] rest.
Proof.
  induction l as [|c l IH]; intros buf rest Hl; simpl.
  - rewrite app_nil_r. reflexivity.
  - simpl in Hl. apply andb_true_iff in Hl as [Hc Hl].
    apply negb_true_iff, orb_false_iff in Hc as [Hlf Hcr].
    rewrite Hcr, Hlf, IH by assumption.
    rewrite <- app_assoc. reflexivity.
Qed.

Lemma readline_lines_terminated (ls : list jsstring) :
  forallb no_line_end ls = true ->
  readline_lines [] (terminated ls) = ls.
Proof.
  unfold terminated. induction ls as [|l ls IH]; simpl; [reflexivity|].
  intros H. apply andb_true_iff in H as [Hl Hls].
  rewrite <- app_assoc. simpl.
  rewrite readline_lines_line by assumption.
  rewrite IH by assumption. reflexivity.
Qed.

Lemma createReadStream_to_end (file : list byte) (start n : nat) :
  List.length file = start + n ->
  createReadStream file start (start + n) = skipn start file
  /\ List.length (skipn start file) = n.
Proof.
  intros Hlen. unfold createReadStream.
  assert (Hn : List.length (skipn start file) = n)
    by (rewrite length_skipn; lia).
  split; [|exact Hn].
  apply firstn_all2. lia.
Qed.

(** The [end] option is inclusive: on a file that has grown past the
    size the notification saw, the byte at that offset is read as well. *)
Remark createReadStream_inclusive_end (file : list byte) (start n : nat) :
  start + n < List.length file ->
  List.length (createReadStream file start (start + n)) = n + 1.
Proof.
  intros Hlen. unfold createReadStream.
  rewrite length_firstn, length_skipn. lia.
Qed.

Lemma readline_lines_tail (tail : jsstring) : forall buf,
  no_line_end tail = true ->
  readline_lines buf tail
  = match buf ++ tail with [] => [] | _ :: _ => [buf ++ tail] end.
Proof.
  induction tail as [|c tail IH]; intros buf Ht; simpl.
  - rewrite app_nil_r. reflexivity.
  - simpl in Ht. apply andb_true_iff in Ht as [Hc Ht].
    apply negb_true_iff, orb_false_iff in Hc as [Hlf Hcr].
    rewrite Hcr, Hlf, IH by assumption.
    rewrite <- app_assoc. reflexivity.
Qed.

Lemma readline_lines_terminated_tail (ls : list jsstring) (tail : jsstring) :
  forallb no_line_end ls = true ->
  no_line_end tail = true ->
  readline_lines [] (terminated ls ++ tail)
  = ls ++ match tail with [] => [] | _ :: _ => [tail] end.
Proof.
  intros Hls Ht. unfold terminated.
  induction ls as [|l ls IH]; simpl.
  - apply (readline_lines_tail tail [] Ht).
  - simpl in Hls. apply andb_true_iff in Hls as [Hl Hls].
    rewrite <- !app_assoc. simpl.
    rewrite readline_lines_line by assumption.
    rewrite IH by assumption. reflexivity.
Qed.

(** C3, as stated, fails in its middle part: what goes to the handler is
    not only complete lines.  With the log at ["ab"], LF, ["cd"] the cycle
    hands over ["ab"] and also ["cd"], which no line end follows in what
    was read; when the log then grows by ["ef"], LF, the next cycle hands
    over ["ef"], so that the line ["cdef"] arrives in two pieces. *)
Lemma unterminated_tail_is_emitted :
  ~ (forall utf8_decode st file sz n,
       lastKnownSize st = sz -> 0 < n -> List.length file = sz + n ->
       forall l,
         In l (lines (fst (notify utf8_decode st file
                             {| size := sz + n |}))) ->
         exists pre nl post,
           (nl = 0x0A \/ nl = 0x0D)%N
           /\ utf8_decode (skipn sz file) = pre ++ l ++ nl :: post)
  /\ lines (fst (notify ascii_decode {| lastKnownSize := 0 |} cut_log
                   {| size := 5 |}))
     = [lit "ab"; lit "cd"]
  /\ lines (fst (notify ascii_decode {| lastKnownSize := 5 |}
                   (cut_log ++ [x65; x66; x0a]) {| size := 8 |}))
     = [lit "ef"].
Proof.
  split; [|split; reflexivity].
  intros H.
  destruct (H ascii_decode {| lastKnownSize := 0 |} cut_log 0 5
              eq_refl ltac:(lia) eq_refl (lit "cd"))
    as (pre & nl & post & _ & E).
  { right. left. reflexivity. }
  vm_compute in E.
  destruct pre as [|p0 [|p1 [|p2 [|p3 [|p4 pre]]]]];
    simpl in E; try discriminate E.
  inversion E. destruct pre; discriminate.
Qed.

(** C3, amended.  In a notification where the file has grown from [sz]
    bytes to [sz + n], the listener asks for the bytes from offset [sz] to
    offset [sz + n], the current size, as an inclusive end; on a file of
    that size this reads the [n] appended bytes, those at offsets [sz] to
    [sz + n - 1], and no others.  Their text is split at line ends and the
    pieces go to [handleLine] in order: the lines that a line end follows,
    and after them what is left without a line end, if anything, as one
    more line.  The last known size is [sz + n] afterwards. *)
Theorem growth_reads_appended_bytes
        (utf8_decode : list byte -> jsstring)
        (st : TailState) (file : list byte) (sz n : nat) :
  lastKnownSize st = sz ->
  0 < n ->
  List.length file = sz + n ->
  let c := fst (notify utf8_decode st file {| size := sz + n |}) in
  let st' := snd (notify utf8_decode st file {| size := sz + n |}) in
  read_range c = Some (sz, sz + n)
  /\ createReadStream file sz (sz + n) = skipn sz file
  /\ List.length (skipn sz file) = n
  /\ (forall ls tail,
        forallb no_line_end ls = true ->
        no_line_end tail = true ->
        utf8_decode (skipn sz file) = terminated ls ++ tail ->
        lines c = ls ++ match tail with [] => [] | _ :: _ => [tail] end
        /\ dispatched c
           = map handleLine ls
               ++ match tail with [] => [] | _ :: _ => [handleLine tail] end)
  /\ lastKnownSize st' = sz + n.
Proof.
  intros Hst Hn Hlen c st'.
  destruct (createReadStream_to_end file sz n Hlen) as [Hread Hl].
  assert (Hc : c = {| read_range := Some (sz, sz + n);
                      lines := readline_lines []
                                 (utf8_decode (skipn sz file)) |}).
  { unfold c, notify, listener. simpl. rewrite Hst.
    destruct (Nat.leb_spec (sz + n) sz) as [Hle | _]; [lia|].
    rewrite Hread. reflexivity. }
  rewrite Hc. simpl.
  split; [reflexivity|]. split; [exact Hread|]. split; [exact Hl|].
  split; [|reflexivity].
  intros ls tail Hls Htail Htext. unfold dispatched. simpl.
  rewrite Htext, readline_lines_terminated_tail by assumption.
  split; [reflexivity|].
  rewrite map_app. destruct tail; reflexivity.
Qed.

Lemma growth_reads_appended_bytes_witness :
  createReadStream two_line_log 3 6 = [x63; x64; x0a]
  /\ lines (fst (notify ascii_decode {| lastKnownSize := 3 |} two_line_log
                   {| size := 6 |}))
     = [lit "cd"] ++ []
  /\ lines (fst (notify ascii_decode {| lastKnownSize := 0 |} cut_log
                   {| size := 5 |}))
     = [lit "ab"] ++ [lit "cd"]
  /\ lastKnownSize
       (snd (notify ascii_decode {| lastKnownSize := 3 |} two_line_log
               {| size := 6 |}))
     = 6.
Proof.
  destruct (@growth_reads_appended_bytes ascii_decode
              {| lastKnownSize := 3 |} two_line_log 3 3
              eq_refl ltac:(lia) eq_refl)
    as (_ & Hread & _ & Hlines & Hst).
  destruct (@growth_reads_appended_bytes ascii_decode
              {| lastKnownSize := 0 |} cut_log 0 5
              eq_refl ltac:(lia) eq_refl)
    as (_ & _ & _ & Hcut & _).
  split; [exact Hread|].
  split; [apply (Hlines [lit "cd"] []); reflexivity|].
  split; [apply (Hcut [lit "ab"] (lit "cd")); reflexivity | exact Hst].
Defined.

(** C4, as stated, fails.  With 9 bytes known and a file found at 3
    bytes, the last known size becomes 3, not 0, and when the file then
    grows to 6 bytes the read starts at offset 3, not at offset 0. *)
Lemma truncation_does_not_reset_to_zero :
  ~ (forall utf8_decode st file curr,
       size curr < lastKnownSize st ->
       lastKnownSize (snd (notify utf8_decode st file curr)) = 0)
  /\ (let st1 :=
        snd (notify ascii_decode {| lastKnownSize := 9 |}
               [x61; x62; x0a] {| size := 3 |}) in
      lastKnownSize st1 = 3
      /\ read_range (fst (notify ascii_decode st1 two_line_log
                            {| size := 6 |}))
         = Some (3, 6)).
Proof.
  split; [|split; reflexivity].
  intros H.
  specialize (H ascii_decode {| lastKnownSize := 9 |} [x61; x62; x0a]
                {| size := 3 |}).
  simpl in H. specialize (H ltac:(lia)). discriminate H.
Qed.

(** C4, amended.  When the observed size is not larger than the last
    known size, the listener asks for no read and hands no line to
    [handleLine]; the last known size becomes the observed size, and the
    next growth is read from that offset.  As long as the observed sizes do
    not decrease, neither does the last known size. *)
Theorem shrink_reads_nothing
        (utf8_decode : list byte -> jsstring)
        (st : TailState) (file : list byte) (curr : Stats) :
  let c := fst (notify utf8_decode st file curr) in
  let st' := snd (notify utf8_decode st file curr) in
  (size curr <= lastKnownSize st ->
   read_range c = None /\ lines c = [] /\ dispatched c = []
   /\ lastKnownSize st' = size curr
   /\ forall file' curr',
        size curr < size curr' ->
        read_range (fst (notify utf8_decode st' file' curr'))
        = Some (size curr, size curr'))
  /\ (lastKnownSize st <= size curr ->
      lastKnownSize st <= lastKnownSize st').
Proof.
  intros c st'. split.
  - intros Hle. unfold c, st', notify, listener. simpl.
    destruct (Nat.leb_spec (size curr) (lastKnownSize st)) as [_ | Hlt];
      [|lia].
    simpl. repeat split.
    intros file' curr' Hgrow.
    destruct (Nat.leb_spec (size curr') (size curr)) as [Hle' | _]; [lia|].
    reflexivity.
  - intros Hle. exact Hle.
Qed.

Lemma shrink_reads_nothing_witness :
  read_range (fst (notify ascii_decode {| lastKnownSize := 9 |}
                     [x61; x62; x0a] {| size := 3 |}))
  = None
  /\ 3 <= lastKnownSize
            (snd (notify ascii_decode {| lastKnownSize := 3 |} two_line_log
                    {| size := 6 |})).
Proof.
  split.
  - apply (proj1 (@shrink_reads_nothing ascii_decode
                    {| lastKnownSize := 9 |} [x61; x62; x0a]
                    {| size := 3 |})).
    simpl. lia.
  - apply (proj2 (@shrink_reads_nothing ascii_decode
                    {| lastKnownSize := 3 |} two_line_log {| size := 6 |})).
    simpl. lia.
Defined.

(* ------------------------------------------------------------------------- *)
(** ** What the chat pattern captures *)
(* ------------------------------------------------------------------------- *)

(** A greedy run that cannot be extended and after which the rest matches
    is the run the matcher settles on. *)
Lemma greedy_star_exact (R : Type) p (k : jsstring -> Cont R) a :
  forall acc b r,
    forallb p a = true ->
    hd_error (map p b) <> Some true ->
    k (acc ++ a) b = Some r ->
    greedy_star p k acc (a ++ b) = Some r.
Proof.
  induction a as [|x a IH]; intros acc b r Ha Hb Hk; simpl in *.
  - rewrite app_nil_r in Hk. destruct b as [|c b]; simpl in *; [exact Hk|].
    destruct (p c); [congruence | exact Hk].
  - apply andb_true_iff in Ha as [Hx Ha]. rewrite Hx.
    rewrite (IH (acc ++ [x]) b r Ha Hb); [reflexivity|].
    rewrite <- app_assoc. exact Hk.
Qed.

Lemma greedy_plus_exact (R : Type) p (k : jsstring -> Cont R) a b r :
  a <> [] ->
  forallb p a = true ->
  hd_error (map p b) <> Some true ->
  k a b = Some r ->
  greedy_plus p k (a ++ b) = Some r.
Proof.
  destruct a as [|c a]; [congruence|]. intros _ Ha Hb Hk. simpl in *.
  apply andb_true_iff in Ha as [Hc Ha]. rewrite Hc.
  apply greedy_star_exact; assumption.
Qed.

Lemma literal_app (R : Type) l (k : Cont R) s :
  literal l k (l ++ s) = k s.
Proof.
  induction l as [|x l IH]; simpl; [reflexivity|].
  rewrite N.eqb_refl. exact IH.
Qed.

Lemma after_team_exact tm ws player sp msg post :
  ws <> [] -> forallb is_space ws = true ->
  player <> [] -> forallb not_colon player = true ->
  hd_error (map is_space player) = Some false ->
  is_space sp = true ->
  msg <> [] -> forallb dot msg = true ->
  hd_error (map dot post) <> Some true ->
  after_team tm (lit "]" ++ ws ++ player ++ lit ":" ++ sp :: msg ++ post)
  = Some (tm, player, msg).
Proof.
  intros Hws Hsp Hpl Hnc Hhd Hs Hm Hdot Hpost. unfold after_team.
  rewrite literal_app.
  apply greedy_plus_exact; try assumption.
  { destruct player as [|c pl]; [congruence|]. simpl in *. congruence. }
  apply greedy_plus_exact; try assumption.
  { simpl. discriminate. }
  rewrite literal_app. simpl. rewrite Hs.
  apply greedy_plus_exact; try assumption. reflexivity.
Qed.

Lemma chat_regex_here_exact tm ws player sp msg post :
  In tm [lit "CT"; lit "T"; lit "ALL"] ->
  ws <> [] -> forallb is_space ws = true ->
  player <> [] -> forallb not_colon player = true ->
  hd_error (map is_space player) = Some false ->
  is_space sp = true ->
  msg <> [] -> forallb dot msg = true ->
  hd_error (map dot post) <> Some true ->
  chat_regex_here
    (lit "[" ++ tm ++ lit "]" ++ ws ++ player ++ lit ":" ++ sp :: msg ++ post)
  = Some (tm, player, msg).
Proof.
  intros Ht Hws Hsp Hpl Hnc Hhd Hs Hm Hdot Hpost.
  pose proof (fun t => @after_team_exact t ws player sp msg post
                         Hws Hsp Hpl Hnc Hhd Hs Hm Hdot Hpost) as Hafter.
  unfold chat_regex_here. rewrite literal_app. unfold alt.
  destruct Ht as [<- | [<- | [<- | []]]].
  - rewrite literal_app, Hafter. reflexivity.
  - change (literal (lit "CT") (after_team (lit "CT")) (lit "T" ++ _))
      with (@None Groups).
    rewrite literal_app, Hafter. reflexivity.
  - change (literal (lit "CT") (after_team (lit "CT")) (lit "ALL" ++ _))
      with (@None Groups).
    change (literal (lit "T") (after_team (lit "T")) (lit "ALL" ++ _))
      with (@None Groups).
    rewrite literal_app, Hafter. reflexivity.
Qed.

(** What stands before the first opening bracket of a line plays no part
    in the match. *)
Lemma chat_match_skips_prefix pre s :
  forallb (fun c => negb (c =? 0x5B)%N) pre = true ->
  chat_match (pre ++ s) = chat_match s.
Proof.
  unfold chat_match. induction pre as [|c pre IH]; intros H; simpl in *;
    [reflexivity|].
  apply andb_true_iff in H as [Hc H]. apply negb_true_iff in Hc.
  replace (chat_regex_here (c :: pre ++ s)) with (@None Groups);
    [apply IH; exact H|].
  unfold chat_regex_here.
  change (literal (lit "[") ?k (c :: ?t))
    with (if (0x5B =? c)%N then k t else None).
  rewrite N.eqb_sym, Hc. reflexivity.
Qed.

(* ------------------------------------------------------------------------- *)
(** ** Trimming *)
(* ------------------------------------------------------------------------- *)

Lemma trimStart_fixed s :
  hd_error (map is_space s) <> Some true -> trimStart s = s.
Proof.
  destruct s as [|c s]; simpl; [reflexivity|].
  destruct (is_space c); [congruence | reflexivity].
Qed.

Lemma trimStart_head s : hd_error (map is_space (trimStart s)) <> Some true.
Proof.
  induction s as [|c s IH]; simpl; [discriminate|].
  destruct (is_space c) eqn:Hc; [exact IH|]. simpl. rewrite Hc. discriminate.
Qed.

Lemma trimStart_split s :
  exists a, s = a ++ trimStart s /\ forallb is_space a = true.
Proof.
  induction s as [|c s (a & IH & Ha)]; simpl.
  - exists []. auto.
  - destruct (is_space c) eqn:Hc.
    + exists (c :: a). split; [simpl; f_equal; exact IH|].
      simpl. rewrite Hc. exact Ha.
    + exists []. auto.
Qed.

Lemma forallb_trimStart p s :
  forallb p s = true -> forallb p (trimStart s) = true.
Proof.
  induction s as [|c s IH]; simpl; [reflexivity|].
  intros H. destruct (is_space c); [|exact H].
  apply andb_true_iff in H as [_ H]. auto.
Qed.

Lemma forallb_rev_true (p : N -> bool) s :
  forallb p s = true -> forallb p (rev s) = true.
Proof.
  rewrite !forallb_forall. intros H x Hx. apply H, in_rev, Hx.
Qed.

Lemma forallb_trim p s : forallb p s = true -> forallb p (trim s) = true.
Proof.
  intros H. unfold trim, trimEnd.
  apply forallb_rev_true, forallb_trimStart, forallb_rev_true,
    forallb_trimStart, H.
Qed.

Lemma hd_error_map_app (f : N -> bool) (l1 l2 : jsstring) :
  l1 <> [] -> hd_error (map f (l1 ++ l2)) = hd_error (map f l1).
Proof. destruct l1; [congruence | reflexivity]. Qed.

Lemma trimEnd_keeps_head t :
  hd_error (map is_space t) <> Some true ->
  hd_error (map is_space (trimEnd t)) <> Some true.
Proof.
  intros Hhd. unfold trimEnd.
  destruct (trimStart_split (rev t)) as (a & Hsplit & _).
  apply (f_equal (@rev N)) in Hsplit.
  rewrite rev_involutive, rev_app_distr in Hsplit.
  destruct (rev (trimStart (rev t))) as [|c u] eqn:Hu; [discriminate|].
  rewrite Hsplit in Hhd. exact Hhd.
Qed.

Lemma trimEnd_idem t : trimEnd (trimEnd t) = trimEnd t.
Proof.
  unfold trimEnd. rewrite rev_involutive.
  rewrite (@trimStart_fixed _ (trimStart_head (rev t))). reflexivity.
Qed.

(** What [trim] gives has nothing left to trim. *)
Lemma trim_idem s : trim (trim s) = trim s.
Proof.
  unfold trim at 1.
  rewrite (@trimStart_fixed (trim s)).
  - unfold trim. apply trimEnd_idem.
  - unfold trim. apply trimEnd_keeps_head, trimStart_head.
Qed.

Lemma trim_fixed s :
  hd_error (map is_space s) <> Some true ->
  hd_error (map is_space (rev s)) <> Some true ->
  trim s = s.
Proof.
  intros Hhd Hlast. unfold trim, trimEnd.
  rewrite (@trimStart_fixed _ Hhd), (@trimStart_fixed _ Hlast).
  apply rev_involutive.
Qed.

(* ------------------------------------------------------------------------- *)
(** ** More on the classifier *)
(* ------------------------------------------------------------------------- *)

(** X1. A line that ends with a chat entry is read back field by field:
    after any text free of opening brackets (a timestamp), a team tag,
    whitespace, a sender without colon that does not begin with
    whitespace, a colon, one whitespace and a message without line
    terminator give the event of that team, with the sender and the
    message trimmed; a message may hold colons. *)
Theorem chat_entry_is_read_back pre tm ws player sp msg :
  forallb (fun c => negb (c =? 0x5B)%N) pre = true ->
  In tm [lit "CT"; lit "T"; lit "ALL"] ->
  ws <> [] -> forallb is_space ws = true ->
  player <> [] -> forallb not_colon player = true ->
  hd_error (map is_space player) = Some false ->
  is_space sp = true ->
  msg <> [] -> forallb dot msg = true ->
  classify
    (pre ++ lit "[" ++ tm ++ lit "]" ++ ws ++ player ++ lit ":" ++ sp :: msg)
  = Some {| team := tm; sender := trim player; message := Some (trim msg) |}.
Proof.
  intros Hpre Ht Hws Hsp Hpl Hnc Hhd Hs Hm Hdot.
  unfold classify. rewrite chat_match_skips_prefix by assumption.
  unfold chat_match.
  assert (Hhere : chat_regex_here
                    (lit "[" ++ tm ++ lit "]" ++ ws ++ player ++ lit ":"
                       ++ sp :: msg ++ [])
                  = Some (tm, player, msg))
    by (apply chat_regex_here_exact; try assumption; discriminate).
  rewrite app_nil_r in Hhere.
  replace (search chat_regex_here
             (lit "[" ++ tm ++ lit "]" ++ ws ++ player ++ lit ":"
                ++ sp :: msg))
    with (Some (tm, player, msg)).
  - rewrite !or_else_some_self. reflexivity.
  - symmetry. simpl app in *. simpl search. simpl in Hhere.
    rewrite Hhere. reflexivity.
Qed.

Lemma chat_entry_is_read_back_witness :
  classify (lit "10/26 18:49:20  [CT] Player Name: gg: wp ")
  = Some {| team := lit "CT"; sender := trim (lit "Player Name");
            message := Some (trim (lit "gg: wp ")) |}.
Proof.
  apply (@chat_entry_is_read_back (lit "10/26 18:49:20  ") (lit "CT")
           (lit " ") (lit "Player Name") 32%N (lit "gg: wp "));
    try reflexivity; try discriminate.
  simpl. auto.
Defined.

(** X2. Every event the classifier gives has one of the three teams, a
    sender without colon, a message without line terminator, and a sender
    and a message on which [trim] has nothing left to do. *)
Theorem classified_event_is_well_formed line ev :
  classify line = Some ev ->
  In (team ev) [lit "CT"; lit "T"; lit "ALL"]
  /\ forallb not_colon (sender ev) = true
  /\ trim (sender ev) = sender ev
  /\ exists m,
       message ev = Some m
       /\ forallb (fun c => negb (is_line_terminator c)) m = true
       /\ trim m = m.
Proof.
  unfold classify.
  destruct (chat_match line) as [[[tm player] raw]|] eqn:Hm; [|discriminate].
  rewrite !or_else_some_self.
  intros E; inversion E; subst ev; clear E. simpl.
  apply chat_match_sound in Hm
    as (pre & s & _ & ws & sp & post & _ & Ht & _ & _ & _ & Hnc & _ & _
        & Hdot).
  split; [exact Ht|].
  split; [apply forallb_trim, Hnc|].
  split; [apply trim_idem|].
  exists (trim raw). split; [reflexivity|].
  split; [apply forallb_trim, Hdot | apply trim_idem].
Qed.

Lemma classified_event_is_well_formed_witness :
  forallb not_colon (trim (lit " ")) = true
  /\ trim (lit "hi") = lit "hi".
Proof.
  destruct (@classified_event_is_well_formed (lit "[T]  : hi")
              {| team := lit "T"; sender := trim (lit " ");
                 message := Some (lit "hi") |} eq_refl)
    as (_ & Hs & _ & m & Hm & _ & Htrim).
  split; [exact Hs|]. inversion Hm; subst m. exact Htrim.
Defined.

(* ------------------------------------------------------------------------- *)
(** ** More on the translation gateway and the pipeline *)
(* ------------------------------------------------------------------------- *)

Lemma no_cyrillic_test txt :
  (forall c, In c txt -> ~ (0x0400 <= c <= 0x04FF)%N) ->
  CYRILLIC_REGEX_test txt = false.
Proof.
  intros H. unfold CYRILLIC_REGEX_test.
  destruct (existsb is_cyrillic txt) eqn:E; [|reflexivity].
  apply existsb_exists in E as (c & Hin & Hc).
  unfold is_cyrillic in Hc. apply andb_true_iff in Hc as [Hlo Hhi].
  apply N.leb_le in Hlo, Hhi. exfalso. apply (H c Hin). split; assumption.
Qed.

(** X3. When the text holds no code unit of the Cyrillic block, or when
    the language detected by the first call is ["ru"] in any letter case,
    [smartTranslate] makes that one call only and returns the service's
    result as it came, without a [__forcedFrom] mark of its own. *)
Theorem no_retry_without_cyrillic_or_when_russian
        (o : Oracle) (txt toLang : jsstring) (res : TranslationResult) :
  o txt (detect_opts toLang) = Resolved (Obj res) ->
  (forall c, In c txt -> ~ (0x0400 <= c <= 0x04FF)%N)
  \/ toLowerCase (or_else (iso res) []) = lit "ru" ->
  run o (smartTranslate txt toLang)
  = ([Called txt (detect_opts toLang)], inr res).
Proof.
  intros Hfirst Hcond. rewrite run_smartTranslate, Hfirst.
  destruct Hcond as [Hno | Hru].
  - rewrite (no_cyrillic_test _ Hno). reflexivity.
  - apply str_eqb_eq in Hru. rewrite Hru, andb_false_r. reflexivity.
Qed.

Lemma no_retry_without_cyrillic_or_when_russian_witness :
  run detects_de (smartTranslate (lit "hallo") (lit "en"))
  = ([Called (lit "hallo") (detect_opts (lit "en"))],
     inr {| text := lit "good day"; iso := Some (lit "de");
            __forcedFrom := None |}).
Proof.
  apply (@no_retry_without_cyrillic_or_when_russian detects_de
           (lit "hallo") (lit "en")
           {| text := lit "good day"; iso := Some (lit "de");
              __forcedFrom := None |} eq_refl).
  left. intros c Hin [Hlo _]. simpl in Hin.
  repeat (destruct Hin as [<- | Hin]; [vm_compute in Hlo; congruence|]).
  exact Hin.
Defined.

(** X4. Whatever the service does, [smartTranslate] starts with the
    detection call, on the text as given and for the target as given, and
    at most one event follows: the call forcing ["ru"] on the same text and
    target, or the warning of a failed detection.  A failed forced call
    leaves no trace of its own. *)
Theorem smartTranslate_calls_are_bounded
        (o : Oracle) (txt toLang : jsstring) :
  exists rest,
    trace o (smartTranslate txt toLang)
    = Called txt (detect_opts toLang) :: rest
    /\ (rest = []
        \/ rest = [Called txt (forced_opts toLang)]
        \/ exists e, rest = [Printed (warning e)]).
Proof.
  unfold trace. rewrite run_smartTranslate.
  destruct (o txt (detect_opts toLang)) as [[| | e] | [| res]]; simpl;
    eauto 6.
  destruct (_ && _); simpl; eauto 6.
Qed.



(** X6. When the retry forcing ["ru"] succeeds, the translated line is
    always printed and names the source language as Russian, whatever
    language codes the two answers of the service carry. *)
Theorem forced_result_is_shown_as_russian
        (o : Oracle) line tm player messageRaw res forced :
  chat_match line = Some (tm, player, messageRaw) ->
  (exists c, In c (trim messageRaw) /\ (0x0400 <= c <= 0x04FF)%N) ->
  o (trim messageRaw) (detect_opts (lit "en")) = Resolved (Obj res) ->
  toLowerCase (or_else (iso res) []) <> lit "ru" ->
  o (trim messageRaw) (forced_opts (lit "en")) = Resolved (Obj forced) ->
  run o (handleLine line)
  = ([Printed (chat_line tm (trim player) (trim messageRaw));
      Called (trim messageRaw) (detect_opts (lit "en"));
      Called (trim messageRaw) (forced_opts (lit "en"));
      Printed (translated_line tm (trim player) (lit "Russian")
                 {| text := text forced; iso := iso forced;
                    __forcedFrom := Some (lit "ru") |})],
     inr tt).
Proof.
  intros Hm (c0 & Hin & Hlo & Hhi) Hfirst Hguess Hsecond.
  assert (Hcyr : CYRILLIC_REGEX_test (trim messageRaw) = true).
  { apply existsb_exists. exists c0. split; [assumption|].
    unfold is_cyrillic. apply andb_true_iff.
    split; apply N.leb_le; assumption. }
  apply str_eqb_neq in Hguess.
  rewrite (handleLine_matched _ Hm), run_ConsoleLog.
  destruct (trim messageRaw) as [|c msg] eqn:E; [destruct Hin|].
  unfold trace, result.
  rewrite (run_autoTranslateToConsole o _ (c:=c) (msg:=msg)) by reflexivity.
  rewrite run_smartTranslate.
  change AUTO_TRANSLATE_TARGET with (lit "en").
  rewrite Hfirst, Hcyr, Hguess, Hsecond. reflexivity.
Qed.

Lemma forced_result_is_shown_as_russian_witness :
  trace guesses_uk (handleLine (lit "[ALL] ivan: " ++ privet))
  = [Printed (chat_line (lit "ALL") (lit "ivan") privet);
     Called privet (detect_opts (lit "en"));
     Called privet (forced_opts (lit "en"));
     Printed (translated_line (lit "ALL") (lit "ivan") (lit "Russian")
                {| text := lit "Hello"; iso := Some (lit "ru");
                   __forcedFrom := Some (lit "ru") |})].
Proof.
  refine (f_equal fst
            (@forced_result_is_shown_as_russian guesses_uk
               (lit "[ALL] ivan: " ++ privet) (lit "ALL") (lit "ivan") privet
               {| text := lit "Hi"; iso := Some (lit "uk");
                  __forcedFrom := None |}
               {| text := lit "Hello"; iso := Some (lit "ru");
                  __forcedFrom := None |}
               eq_refl _ eq_refl ltac:(discriminate) eq_refl)).
  exists 0x043F%N. split; [simpl; auto | lia].
Defined.

(* ------------------------------------------------------------------------- *)
(** ** Language names *)
(* ------------------------------------------------------------------------- *)

(** Every entry of the table is found under its own key and has a name. *)
Lemma LANG_MAP_entries_found :
  forallb
    (fun e =>
       match lookup (fst e) LANG_MAP with
       | Some v => str_eqb v (snd e) && negb (str_eqb v [])
       | None => false
       end)
    LANG_MAP
  = true.
Proof. vm_compute. reflexivity. Qed.

Lemma upper_lower_unit c : upper_unit (lower_unit c) = upper_unit c.
Proof.
  unfold upper_unit, lower_unit.
  destruct ((0x41 <=? c) && (c <=? 0x5A))%N eqn:Hup.
  - apply andb_true_iff in Hup as [H1 H2]. apply N.leb_le in H1, H2.
    replace ((0x61 <=? c + 32) && (c + 32 <=? 0x7A))%N with true
      by (symmetry; apply andb_true_iff; split; apply N.leb_le; lia).
    replace ((0x61 <=? c) && (c <=? 0x7A))%N with false
      by (symmetry; apply andb_false_iff; left; apply N.leb_gt; lia).
    lia.
  - reflexivity.
Qed.

Lemma LANG_MAP_keys_lowercase :
  forallb (fun e => str_eqb (toLowerCase (fst e)) (fst e)) LANG_MAP = true.
Proof. vm_compute. reflexivity. Qed.

Lemma lower_upper_unit c : lower_unit (upper_unit c) = lower_unit c.
Proof.
  unfold upper_unit, lower_unit.
  destruct ((0x61 <=? c) && (c <=? 0x7A))%N eqn:Hlow.
  - apply andb_true_iff in Hlow as [H1 H2]. apply N.leb_le in H1, H2.
    replace ((0x41 <=? c - 32) && (c - 32 <=? 0x5A))%N with true
      by (symmetry; apply andb_true_iff; split; apply N.leb_le; lia).
    replace ((0x41 <=? c) && (c <=? 0x5A))%N with false
      by (symmetry; apply andb_false_iff; right; apply N.leb_gt; lia).
    lia.
  - reflexivity.
Qed.

(** X7. Every entry of the table has a lowercase key and a name that is
    not empty, and is reached by its code in any letter case: [langName]
    gives the entry's name for the key itself, for the key in upper case,
    and for every code that equals the key up to case.  No entry is hidden
    by another. *)
Theorem langName_of_table_code (k v : jsstring) :
  In (k, v) LANG_MAP ->
  toLowerCase k = k
  /\ v <> []
  /\ langName k = v
  /\ langName (toUpperCase k) = v
  /\ forall code, toLowerCase code = toLowerCase k -> langName code = v.
Proof.
  intros Hin.
  pose proof (proj1 (forallb_forall _ _) LANG_MAP_entries_found _ Hin) as H.
  pose proof (proj1 (forallb_forall _ _) LANG_MAP_keys_lowercase _ Hin)
    as Hlow.
  cbn [fst snd] in H, Hlow. apply str_eqb_eq in Hlow.
  destruct (lookup k LANG_MAP) as [v'|] eqn:Hk; [|discriminate H].
  apply andb_true_iff in H as [Hv Hne]. apply str_eqb_eq in Hv. subst v'.
  assert (Hv : v <> []) by (destruct v; [discriminate Hne | discriminate]).
  assert (Hall : forall code,
             toLowerCase code = toLowerCase k -> langName code = v).
  { intros code Hcode. unfold langName, LANG_MAP_get.
    rewrite or_else_some_self, Hcode, Hlow, Hk.
    destruct v; [congruence | reflexivity]. }
  repeat split; try assumption.
  - apply Hall. reflexivity.
  - apply Hall. unfold toLowerCase, toUpperCase. rewrite map_map.
    apply map_ext. intros c. apply lower_upper_unit.
Qed.

Lemma langName_of_table_code_witness :
  langName (lit "Zh_TW") = lit "Chinese (Traditional)".
Proof.
  apply (proj2 (proj2 (proj2 (proj2
           (@langName_of_table_code (lit "zh_tw")
              (lit "Chinese (Traditional)")
              (nth_error_In LANG_MAP 16 eq_refl)))))
           (lit "Zh_TW")).
  reflexivity.
Defined.

(** X8. [langName] never gives an empty name.  For an ASCII code that the
    table does not hold, and that is not one of the two lowercase names an
    object inherits, it gives the code in upper case, and ["UNKNOWN"] when
    the code is empty.  (Outside ASCII the case mappings of the language
    do more than [toLowerCase] and [toUpperCase] here, and under an
    inherited name [LANG_MAP[key]] finds what [lookup] does not: the
    statement keeps to where the embedding is exact.) *)
Theorem langName_of_unknown_code (code : jsstring) :
  langName code <> []
  /\ (Forall (fun c => (c < 128)%N) code ->
      lookup (toLowerCase code) LANG_MAP = None ->
      toLowerCase code <> lit "constructor" ->
      toLowerCase code <> lit "__proto__" ->
      langName code
      = match code with [] => lit "UNKNOWN" | _ :: _ => toUpperCase code end).
Proof.
  unfold langName, LANG_MAP_get, inherited_property.
  rewrite or_else_some_self. split.
  - generalize (toUpperCase (toLowerCase code)). intros u.
    destruct (lookup (toLowerCase code) LANG_MAP) as [[|c v]|];
      [| |destruct (str_eqb (toLowerCase code) (lit "constructor"));
          [|destruct (str_eqb (toLowerCase code) (lit "__proto__"))]];
      destruct u; cbv; intros E; discriminate E.
  - intros _ Hnone Hc Hp. rewrite Hnone.
    apply str_eqb_neq in Hc, Hp. rewrite Hc, Hp. simpl.
    unfold toUpperCase, toLowerCase. rewrite map_map.
    rewrite (map_ext _ _ upper_lower_unit).
    destruct code; reflexivity.
Qed.

Lemma langName_of_unknown_code_witness : langName (lit "tlh") = lit "TLH".
Proof.
  apply (proj2 (langName_of_unknown_code (lit "tlh"))).
  - repeat constructor.
  - reflexivity.
  - discriminate.
  - discriminate.
Defined.

(* ------------------------------------------------------------------------- *)
(** ** What a handler prints in its own turn *)
(* ------------------------------------------------------------------------- *)

Lemma sync_output_autoTranslateToConsole ev :
  sync_output (autoTranslateToConsole ev) = [].
Proof.
  unfold autoTranslateToConsole.
  destruct (message ev) as [[|c msg]|]; reflexivity.
Qed.

(** X9. In the turn in which a line arrives its handler prints the raw
    chat line when the line is a chat line, and nothing otherwise; warnings
    and translated lines are only printed once the service has answered.
    So, over the lines of a cycle, the raw chat lines are printed in the
    order of the log. *)
Theorem raw_lines_in_log_order (c : Cycle) :
  (forall line,
     sync_output (handleLine line)
     = match classify line with
       | Some ev =>
           [chat_line (team ev) (sender ev) (or_else (message ev) [])]
       | None => []
       end)
  /\ List.concat (map sync_output (dispatched c))
     = flat_map
         (fun line =>
            match classify line with
            | Some ev =>
                [chat_line (team ev) (sender ev) (or_else (message ev) [])]
            | None => []
            end)
         (lines c).
Proof.
  assert (H : forall line,
             sync_output (handleLine line)
             = match classify line with
               | Some ev =>
                   [chat_line (team ev) (sender ev)
                      (or_else (message ev) [])]
               | None => []
               end).
  { intros line. destruct (classify line) as [ev|] eqn:Hc.
    - destruct (classify_some _ Hc) as (msg & Hm & ->).
      simpl. rewrite sync_output_autoTranslateToConsole, Hm.
      rewrite or_else_some_self. reflexivity.
    - rewrite (classify_none _ Hc). reflexivity. }
  split; [exact H|].
  unfold dispatched. induction (lines c) as [|line ls IH]; simpl;
    [reflexivity|].
  rewrite IH, H. reflexivity.
Qed.

(* ------------------------------------------------------------------------- *)
(** ** More on the tailer *)
(* ------------------------------------------------------------------------- *)

Lemma bytes_read_of_append utf8_decode st file chunk :
  lastKnownSize st = List.length file ->
  bytes_read (file ++ chunk)
    (fst (notify utf8_decode st (file ++ chunk)
            {| size := List.length (file ++ chunk) |}))
  = chunk.
Proof.
  intros Hst. unfold notify, listener, bytes_read. simpl.
  rewrite Hst, length_app.
  destruct (Nat.leb_spec (List.length file + List.length chunk)
              (List.length file)) as [Hle | Hlt]; simpl.
  - destruct chunk; [reflexivity | simpl in Hle; lia].
  - destruct (@createReadStream_to_end (file ++ chunk) (List.length file)
                (List.length chunk)) as [-> _].
    + apply length_app.
    + rewrite skipn_app, skipn_all, Nat.sub_diag. reflexivity.
Qed.

(** X10. When the watcher starts level with the log and is notified after
    each append, every notification reads exactly the chunk appended
    before it, whatever the number and sizes of the chunks (an empty chunk
    reads nothing): no byte of the log is skipped or read twice. *)
Theorem appends_are_read_once_each utf8_decode
        (appends : list (list byte)) :
  forall (st : TailState) (file : list byte),
    lastKnownSize st = List.length file ->
    tail_appends utf8_decode st file appends = appends.
Proof.
  induction appends as [|chunk rest IH]; intros st file Hst; simpl;
    [reflexivity|].
  f_equal.
  - apply (bytes_read_of_append utf8_decode st file chunk Hst).
  - apply IH. reflexivity.
Qed.

Lemma appends_are_read_once_each_witness :
  tail_appends ascii_decode {| lastKnownSize := 3 |} [x61; x62; x0a]
    [[x63; x64]; []; [x0a; x65]]
  = [[x63; x64]; []; [x0a; x65]].
Proof.
  apply (@appends_are_read_once_each ascii_decode
           [[x63; x64]; []; [x0a; x65]] {| lastKnownSize := 3 |}
           [x61; x62; x0a]).
  reflexivity.
Defined.

Lemma firstn_succ_nth_error (bs : list byte) : forall n x,
  nth_error bs n = Some x -> firstn (n + 1) bs = firstn n bs ++ [x].
Proof.
  induction bs as [|b bs IH]; intros [|n] x H; simpl in *;
    try discriminate.
  - inversion H. reflexivity.
  - rewrite (IH n x H). reflexivity.
Qed.

Lemma nth_error_skipn (bs : list byte) : forall n k,
  nth_error (skipn n bs) k = nth_error bs (n + k).
Proof.
  induction bs as [|b bs IH]; intros [|n] k; simpl; try reflexivity.
  - destruct k; reflexivity.
  - apply IH.
Qed.

(** X11. The end of the range asked of the stream is the observed size
    itself, one past the last byte observed.  When the log has already
    grown further by the time it is read, the byte at that offset is read
    in this cycle, and read again as the first byte of the next cycle,
    which starts at the same offset. *)
Theorem stale_size_reads_a_byte_twice utf8_decode
        (file file' : list byte) (sz a b : nat) (x : byte) :
  sz < a -> a < b ->
  nth_error file a = Some x ->
  nth_error file' a = Some x ->
  let n1 := notify utf8_decode {| lastKnownSize := sz |} file {| size := a |}
  in
  let n2 := notify utf8_decode (snd n1) file' {| size := b |} in
  bytes_read file (fst n1) = firstn (a - sz) (skipn sz file) ++ [x]
  /\ exists rest, bytes_read file' (fst n2) = x :: rest.
Proof.
  intros Hsa Hab Hx Hx' n1 n2.
  unfold n2, n1, notify, listener, bytes_read, createReadStream. simpl.
  destruct (Nat.leb_spec a sz) as [Hle | _]; [lia|].
  destruct (Nat.leb_spec b a) as [Hle | _]; [lia|]. simpl. split.
  - replace (a + 1 - sz) with ((a - sz) + 1) by lia.
    apply firstn_succ_nth_error.
    rewrite nth_error_skipn. replace (sz + (a - sz)) with a by lia.
    exact Hx.
  - replace (b + 1 - a) with (S (b - a)) by lia.
    pose proof (nth_error_skipn file' a 0) as H0.
    rewrite Nat.add_0_r, Hx' in H0.
    destruct (skipn a file') as [|y rest]; [discriminate|].
    inversion H0; subst y. simpl. eauto.
Qed.

Lemma stale_size_reads_a_byte_twice_witness :
  bytes_read two_line_log
    (fst (notify ascii_decode {| lastKnownSize := 0 |} two_line_log
            {| size := 3 |}))
  = [x61; x62; x0a] ++ [x63].
Proof.
  apply (proj1 (@stale_size_reads_a_byte_twice ascii_decode two_line_log
                  two_line_log 0 3 6 x63
                  ltac:(lia) ltac:(lia) eq_refl eq_refl)).
Defined.

Lemma readline_lines_crlf_line (l : jsstring) : forall buf rest,
  no_line_end l = true ->
  readline_lines buf (l ++ 0x0D%N :: 0x0A%N :: rest)
  = (buf ++ l) :: readline_lines [] rest.
Proof.
  induction l as [|c l IH]; intros buf rest Hl; simpl.
  - rewrite app_nil_r. reflexivity.
  - simpl in Hl. apply andb_true_iff in Hl as [Hc Hl].
    apply negb_true_iff, orb_false_iff in Hc as [Hlf Hcr].
    rewrite Hcr, Hlf, IH by assumption.
    rewrite <- app_assoc. reflexivity.
Qed.

(** X12. A log written with CR LF line ends, as on Windows, gives the
    same lines as one written with LF: the lines handed to [handleLine]
    carry no trace of the line ends. *)
Theorem crlf_lines_are_read_like_lf_lines (ls : list jsstring) :
  forallb no_line_end ls = true ->
  readline_lines [] (terminated_crlf ls) = ls
  /\ readline_lines [] (terminated_crlf ls)
     = readline_lines [] (terminated ls).
Proof.
  intros H.
  assert (Hcrlf : readline_lines [] (terminated_crlf ls) = ls).
  { unfold terminated_crlf. induction ls as [|l ls IH]; simpl;
      [reflexivity|].
    simpl in H. apply andb_true_iff in H as [Hl Hls].
    rewrite <- app_assoc. simpl.
    rewrite readline_lines_crlf_line by assumption.
    rewrite IH by assumption. reflexivity. }
  split; [exact Hcrlf|].
  rewrite Hcrlf, (readline_lines_terminated _ H). reflexivity.
Qed.

Lemma crlf_lines_are_read_like_lf_lines_witness :
  readline_lines [] (terminated_crlf [lit "[T] a: b"; []; lit "x"])
  = [lit "[T] a: b"; []; lit "x"].
Proof.
  apply (proj1 (@crlf_lines_are_read_like_lf_lines
                  [lit "[T] a: b"; []; lit "x"] eq_refl)).
Defined.

(* ------------------------------------------------------------------------- *)
(** ** The command line *)
(* ------------------------------------------------------------------------- *)

Lemma includes_In args x : includes args x = true <-> In x args.
Proof.
  unfold includes. rewrite existsb_exists. split.
  - intros (a & Hin & Heq). apply str_eqb_eq in Heq. subst a. exact Hin.
  - intros Hin. exists x. split; [exact Hin | apply str_eqb_refl].
Qed.

Ltac cli_cases :=
  repeat split; intros; subst; try discriminate; try tauto;
  repeat match goal with
         | H : _ /\ _ |- _ => destruct H
         | H : exists _, _ |- _ => destruct H
         | H : _ :: _ = _ :: _ |- _ => inversion H; clear H; subst
         | H : UpdateLogPath _ = UpdateLogPath _ |- _ =>
             inversion H; clear H; subst
         end;
  try discriminate; try congruence; try tauto; eauto.

(** X13. The configuration is only written for [--init-config] or
    [--set-log-path] standing first, the latter followed by a value that
    is not empty, and never when [--help] or [-h] stands anywhere among
    the arguments, which prints the help instead.  In particular
    [--set-log-path] without a value starts the watcher. *)
Theorem cli_writes_config_only_when_asked (args : list jsstring) :
  let help := In (lit "--help") args \/ In (lit "-h") args in
  (cli args = PrintCliHelp <-> help)
  /\ (cli args = InitConfigCli <->
      ~ help /\ exists rest, args = lit "--init-config" :: rest)
  /\ (forall p,
        cli args = UpdateLogPath p <->
        ~ help /\ p <> []
        /\ exists rest, args = lit "--set-log-path" :: p :: rest)
  /\ (args = [lit "--set-log-path"] -> cli args = Start).
Proof.
  intros help.
  assert (Hhelp : includes args (lit "--help") || includes args (lit "-h")
                  = true <-> help).
  { rewrite orb_true_iff, !includes_In. reflexivity. }
  unfold cli, arg_is.
  destruct (includes args (lit "--help") || includes args (lit "-h")).
  { assert (help) by (apply Hhelp; reflexivity).
    repeat split; try tauto; try discriminate.
    intros ->. destruct H as [[E | []] | [E | []]]; discriminate E. }
  assert (Hno : ~ help) by (intros Hh; apply Hhelp in Hh; discriminate).
  clear Hhelp.
  destruct args as [|a0 rest]; simpl; [cli_cases|].
  destruct (str_eqb a0 (lit "--init-config")) eqn:Hinit.
  { apply str_eqb_eq in Hinit. subst a0. cli_cases. }
  apply str_eqb_neq in Hinit.
  destruct (str_eqb a0 (lit "--set-log-path")) eqn:Hset.
  - apply str_eqb_eq in Hset. subst a0.
    destruct rest as [|[|c p'] r]; simpl; cli_cases.
  - apply str_eqb_neq in Hset. cli_cases.
Qed.

Lemma cli_writes_config_only_when_asked_witness :
  cli [lit "--set-log-path"] = Start
  /\ cli [lit "--set-log-path"; lit "/tmp/console.log"; lit "-h"]
     = PrintCliHelp.
Proof.
  split.
  - apply (proj2 (proj2 (proj2
             (cli_writes_config_only_when_asked [lit "--set-log-path"])))).
    reflexivity.
  - apply (proj1 (cli_writes_config_only_when_asked
                    [lit "--set-log-path"; lit "/tmp/console.log";
                     lit "-h"])).
    right. simpl. auto.
Defined.

(* ------------------------------------------------------------------------- *)
(** ** The configuration file *)
(* ------------------------------------------------------------------------- *)

Section ConfigFacts.

Variable number : Type.
Variable number_truthy : number -> bool.
Variable JSON_parse : jsstring -> JsError + Json number.
Variable defaultLogPath : jsstring.

Abbreviation load := (loadConfig number_truthy JSON_parse defaultLogPath).
Abbreviation default := (@defaultConfig number defaultLogPath).

Lemma loadConfig_cases (f : ConfigFile) :
  snd (load f) = default
  \/ exists raw props v,
       f = Holds raw
       /\ JSON_parse (trim raw) = inr (JObject props)
       /\ own_property (lit "logPath") props = Some v
       /\ truthy number_truthy v = true
       /\ load f = ([], {| logPath := v |}).
Proof.
  destruct f as [| e | raw]; simpl; auto.
  destruct (trim raw) as [|c txt] eqn:Htrim; auto.
  destruct (JSON_parse (c :: txt)) as [e | cfg] eqn:Hparse; auto.
  destruct cfg as [| b | n | s | items | props]; simpl; auto.
  destruct (own_property (lit "logPath") props) as [v|] eqn:Hprop;
    simpl; auto.
  destruct (truthy number_truthy v) eqn:Hv; auto.
  right. exists raw, props, v. rewrite Htrim. auto.
Qed.

(** X14. [loadConfig] always returns a configuration.  It is the default
    one unless the file holds, around its text, nothing but whitespace, the
    text parses to an object, and that object has a truthy [logPath] of its
    own; then the configuration is that [logPath], and nothing is printed.
    A missing file and a blank file are not errors; a file that cannot be
    read, text that is not JSON and the document [null] print one line each
    on the error stream. *)
Theorem loadConfig_falls_back_to_default (f : ConfigFile) :
  (snd (load f) = default
   \/ exists raw props v,
        f = Holds raw
        /\ JSON_parse (trim raw) = inr (JObject props)
        /\ own_property (lit "logPath") props = Some v
        /\ truthy number_truthy v = true
        /\ load f = ([], {| logPath := v |}))
  /\ (f = Absent -> load f = ([], default))
  /\ (forall raw, f = Holds raw -> trim raw = [] -> load f = ([], default))
  /\ (forall e, f = ReadFails e -> load f = ([load_failure e], default))
  /\ (forall raw e,
        f = Holds raw -> trim raw <> [] -> JSON_parse (trim raw) = inl e ->
        load f = ([load_failure e], default))
  /\ (forall raw,
        f = Holds raw -> trim raw <> [] ->
        JSON_parse (trim raw) = inr JNull ->
        exists e, load f = ([load_failure e], default)).
Proof.
  split; [apply loadConfig_cases | repeat split].
  - intros ->. reflexivity.
  - intros raw -> Htrim. simpl. rewrite Htrim. reflexivity.
  - intros e ->. reflexivity.
  - intros raw e -> Hne Hparse. simpl.
    destruct (trim raw) as [|c txt]; [congruence|]. rewrite Hparse.
    reflexivity.
  - intros raw -> Hne Hparse. simpl.
    destruct (trim raw) as [|c txt]; [congruence|]. rewrite Hparse.
    simpl. eauto.
Qed.

(** X15. As long as the default log path is not empty, the log path that
    [setupFromConfig] takes from the configuration is truthy whatever the
    configuration file holds, so its exit for a missing [logPath] is never
    taken. *)
Theorem setupFromConfig_always_has_a_path (f : ConfigFile) :
  defaultLogPath <> [] ->
  truthy number_truthy (logPath (snd (load f))) = true
  /\ setupFromConfig number_truthy JSON_parse defaultLogPath f
     = Some (logPath (snd (load f))).
Proof.
  intros Hdef.
  assert (Hd : truthy number_truthy (logPath default) = true).
  { simpl. destruct defaultLogPath; [congruence | reflexivity]. }
  assert (H : truthy number_truthy (logPath (snd (load f))) = true).
  { destruct (loadConfig_cases f)
      as [-> | (raw & props & v & _ & _ & _ & Hv & ->)]; assumption. }
  split; [exact H|].
  unfold setupFromConfig. rewrite H. reflexivity.
Qed.

End ConfigFacts.

Lemma loadConfig_falls_back_to_default_witness :
  loadConfig sample_number_truthy sample_parse (lit "/default/console.log")
    (Holds (lit " not json "))
  = ([load_failure {| err_message := lit "Unexpected token" |}],
     defaultConfig (lit "/default/console.log")).
Proof.
  apply (proj1 (proj2 (proj2 (proj2 (proj2
           (@loadConfig_falls_back_to_default nat sample_number_truthy
              sample_parse (lit "/default/console.log")
              (Holds (lit " not json "))))))) (lit " not json ")
           {| err_message := lit "Unexpected token" |});
    try reflexivity.
  discriminate.
Defined.

Lemma setupFromConfig_always_has_a_path_witness :
  setupFromConfig sample_number_truthy sample_parse
    (lit "/default/console.log") (Holds (lit "{}"))
  = Some (JString (lit "/default/console.log")).
Proof.
  apply (proj2 (@setupFromConfig_always_has_a_path nat sample_number_truthy
                  sample_parse (lit "/default/console.log")
                  (Holds (lit "{}")) ltac:(discriminate))).
Defined.

(* ------------------------------------------------------------------------- *)
(** ** Answers without a language *)
(* ------------------------------------------------------------------------- *)

(** X16. When the service answers a message free of Cyrillic with a
    result that names no language (none at all, or an empty code), the
    translated line is printed all the same, with ["UNKNOWN"] for the
    language, after the one call. *)
Theorem missing_language_is_shown_as_unknown
        (o : Oracle) line tm player messageRaw res :
  chat_match line = Some (tm, player, messageRaw) ->
  trim messageRaw <> [] ->
  (forall c, In c (trim messageRaw) -> ~ (0x0400 <= c <= 0x04FF)%N) ->
  o (trim messageRaw) (detect_opts (lit "en")) = Resolved (Obj res) ->
  iso res = None \/ iso res = Some [] ->
  __forcedFrom res = None ->
  run o (handleLine line)
  = ([Printed (chat_line tm (trim player) (trim messageRaw));
      Called (trim messageRaw) (detect_opts (lit "en"));
      Printed (translated_line tm (trim player) (lit "UNKNOWN") res)],
     inr tt).
Proof.
  intros Hm Hne Hno Hfirst Hiso Hforced.
  rewrite (handleLine_matched _ Hm), run_ConsoleLog.
  pose proof (no_cyrillic_test _ Hno) as Hcyr.
  destruct (trim messageRaw) as [|c msg] eqn:E; [congruence|].
  unfold trace, result.
  rewrite (run_autoTranslateToConsole o _ (c:=c) (msg:=msg)) by reflexivity.
  rewrite run_smartTranslate.
  change AUTO_TRANSLATE_TARGET with (lit "en").
  rewrite Hfirst, Hcyr. simpl andb. cbv iota.
  unfold originalLangReadable, source_iso. rewrite Hforced.
  destruct Hiso as [-> | ->]; reflexivity.
Qed.

Lemma missing_language_is_shown_as_unknown_witness :
  run (fun txt _ =>
         Resolved (Obj {| text := txt; iso := None; __forcedFrom := None |}))
    (handleLine (lit "[CT] amy: ??"))
  = ([Printed (chat_line (lit "CT") (lit "amy") (lit "??"));
      Called (lit "??") (detect_opts (lit "en"));
      Printed (translated_line (lit "CT") (lit "amy") (lit "UNKNOWN")
                 {| text := lit "??"; iso := None; __forcedFrom := None |})],
     inr tt).
Proof.
  apply (@missing_language_is_shown_as_unknown
           (fun txt _ =>
              Resolved
                (Obj {| text := txt; iso := None; __forcedFrom := None |}))
           (lit "[CT] amy: ??") (lit "CT") (lit "amy") (lit "??")
           {| text := lit "??"; iso := None; __forcedFrom := None |}
           eq_refl ltac:(discriminate)).
  - intros c Hin [Hlo _]. simpl in Hin.
    repeat (destruct Hin as [<- | Hin]; [vm_compute in Hlo; congruence|]).
    exact Hin.
  - reflexivity.
  - left. reflexivity.
  - reflexivity.
Defined.
